(** * donut-receipt: schema-constrained decoding, shallow embedding

    The development follows the four source files of the repository:

    - [src/domain/receipt.py]              (module [Receipt])
    - [src/domain/inference_processor.py]  (module [InferenceLogitsProcessor])
    - [src/domain/dataset.py]              (module [Dataset])
    - [src/domain/model.py]                (module [Model])

    Python values are modelled as follows.  A [str] is the list of its
    Unicode code points; a token id is a vocabulary index ([nat]); a label
    is a signed integer ([Z]); a score is an IEEE-754 value ([spec_float]);
    a call that may raise returns a [result]. *)

From Stdlib Require Import String Ascii Bool Arith NArith ZArith QArith Lia.
From Stdlib Require Import SpecFloat List.
Import ListNotations.

Close Scope Q_scope.
Open Scope nat_scope.

Set Implicit Arguments.

(** ** Python exceptions and fallible calls *)

Inductive exn : Type :=
| KeyError
| StopIteration
| IndexError
| ZeroDivisionError.

Inductive result (A : Type) : Type :=
| Ok (a : A)
| Raise (e : exn).

Arguments Ok {A} a.
Arguments Raise {A} e.

Definition bind {A B : Type} (r : result A) (k : A -> result B) : result B :=
  match r with
  | Ok a => k a
  | Raise e => Raise e
  end.

Notation "x <- r ;; k" := (bind r (fun x => k))
  (at level 61, r at next level, right associativity).

(** ** Python strings *)

Module PyStr.

(** A character is its code point. *)
Definition char : Type := N.

Definition pystr : Type := list char.

(** A string literal of the source. *)
Definition str (s : string) : pystr :=
  map N_of_ascii (list_ascii_of_string s).

Arguments str s%_string.

Definition eqb (a b : pystr) : bool :=
  if list_eq_dec N.eq_dec a b then true else false.

(** [x in xs] for a list of strings. *)
Definition mem (x : pystr) (xs : list pystr) : bool :=
  existsb (eqb x) xs.

(** [d[k]] for a dict literal, kept as the list of its items. *)
Fixpoint dict_get {V : Type} (d : list (pystr * V)) (k : pystr) : result V :=
  match d with
  | [] => Raise KeyError
  | (k', v) :: d' => if eqb k k' then Ok v else dict_get d' k
  end.

(** [s.startswith(p)] *)
Fixpoint prefix (p s : pystr) : bool :=
  match p, s with
  | [], _ => true
  | _ :: _, [] => false
  | a :: p', b :: s' => N.eqb a b && prefix p' s'
  end.

(** [p in s] for strings: [p] starts at some position of [s]. *)
Fixpoint occurs (p s : pystr) : bool :=
  prefix p s ||
  match s with
  | [] => false
  | _ :: s' => occurs p s'
  end.

End PyStr.

Import PyStr.

(** ** receipt.py *)

Module Receipt.

Record Receipt : Type := mkReceipt {
  image_path : pystr;
  company : pystr;
  date : pystr;
  address : pystr;
  total : pystr
}.

(** The [xml] property: adjacent literals and f-strings are concatenated. *)
Definition xml (self : Receipt) : pystr :=
  str "<s>"
  ++ (str "<s_company>" ++ company self ++ str "</s_company>")
  ++ (str "<s_date>" ++ date self ++ str "</s_date>")
  ++ (str "<s_address>" ++ address self ++ str "</s_address>")
  ++ (str "<s_total>" ++ total self ++ str "</s_total>")
  ++ str "</s>".

(** [get_xml_tags]: the last two literals of the source list are adjacent
    with no comma between them, which Python reads as one string. *)
Definition get_xml_tags : list pystr :=
  [ str "<s>";
    str "<s_company>";
    str "</s_company>";
    str "<s_date>";
    str "</s_date>";
    str "<s_address>";
    str "</s_address>";
    str "<s_total>";
    str "</s_total>" ++ str "</s>" ].

End Receipt.

(** ** The tokenizer (external collaborator)

    [XLMRobertaTokenizer] belongs to the [transformers] library.  The record
    holds the attributes and methods the repository calls. *)

Record Tokenizer : Type := mkTokenizer {
  convert_tokens_to_ids : pystr -> nat;
  convert_ids_to_tokens : nat -> pystr;
  pad_token : pystr;
  pad_token_id : nat;
  (** the ids of a text, [add_special_tokens=False], neither padded nor
      truncated *)
  encode : pystr -> list nat
}.

(** ** Scores *)

Definition score : Type := spec_float.

(** [-float("inf")] *)
Definition neg_inf : score := S754_infinity true.

(** ** Index assignment on a list *)

Fixpoint set_nth {A : Type} (i : nat) (v : A) (l : list A) : list A :=
  match l, i with
  | [], _ => []
  | _ :: l', O => v :: l'
  | x :: l', S i' => x :: set_nth i' v l'
  end.

(** [row[idx] = v] for a list [idx] of indices; an index past the end raises
    [IndexError]. *)
Fixpoint index_fill {A : Type} (row : list A) (idx : list nat) (v : A)
  : result (list A) :=
  match idx with
  | [] => Ok row
  | i :: idx' =>
      if i <? length row then index_fill (set_nth i v row) idx' v
      else Raise IndexError
  end.

(** ** inference_processor.py *)

Module InferenceLogitsProcessor.

Record t : Type := mk {
  tokenizer : Tokenizer;
  special_tokens : list pystr;
  special_token_ids : list nat
}.

(** [__init__] *)
Definition init (tokenizer : Tokenizer) : t :=
  let special_tokens := Receipt.get_xml_tags in
  mk tokenizer special_tokens
     (map (convert_tokens_to_ids tokenizer) special_tokens).

(** [token_id in self.special_token_ids] *)
Definition is_special (self : t) (token_id : nat) : bool :=
  existsb (Nat.eqb token_id) (special_token_ids self).

(** [_last_tag]: [next] over the reversed ids; an exhausted generator
    raises [StopIteration]. *)
Definition _last_tag (self : t) (ids : list nat) : result pystr :=
  match find (is_special self) (rev ids) with
  | Some last_special_token_id =>
      Ok (convert_ids_to_tokens (tokenizer self) last_special_token_id)
  | None => Raise StopIteration
  end.

(** The dict literal of [_candidate_tags]. *)
Definition transitions : list (pystr * list pystr) :=
  [ (str "<s>", [str "<s_company>"]);
    (str "<s_company>", [str "</s_company>"]);
    (str "</s_company>", [str "<s_date>"]);
    (str "<s_date>", [str "</s_date>"]);
    (str "</s_date>", [str "<s_address>"]);
    (str "<s_address>", [str "</s_address>"]);
    (str "</s_address>", [str "<s_total>"]);
    (str "<s_total>", [str "</s>"]) ].

Definition _candidate_tags (last_tag : pystr) : result (list pystr) :=
  dict_get transitions last_tag.

(** The list comprehension [forbidden] of [__call__]. *)
Definition forbidden (self : t) (candidates : list pystr) : list nat :=
  filter
    (fun token_id =>
       negb (mem (convert_ids_to_tokens (tokenizer self) token_id) candidates))
    (special_token_ids self).

(** One iteration of the row loop of [__call__], on [scores[i_row]]. *)
Definition call_row (self : t) (ids : list nat) (row : list score)
  : result (list score) :=
  last_tag_label <- _last_tag self ids ;;
  candidates <- _candidate_tags last_tag_label ;;
  index_fill row (forbidden self candidates) neg_inf.

(** [__call__]: rows are visited in order; [scores[i_row]] must exist. *)
Fixpoint call (self : t) (input_ids : list (list nat))
         (scores : list (list score)) : result (list (list score)) :=
  match input_ids with
  | [] => Ok scores
  | ids :: input_ids' =>
      match scores with
      | [] =>
          last_tag_label <- _last_tag self ids ;;
          candidates <- _candidate_tags last_tag_label ;;
          Raise IndexError
      | row :: scores' =>
          row' <- call_row self ids row ;;
          rest <- call self input_ids' scores' ;;
          Ok (row' :: rest)
      end
  end.

End InferenceLogitsProcessor.

(** ** Leftmost, non-overlapping substitution

    [str.replace] and [re.sub] both scan the text from the left: where the
    matcher succeeds its output is emitted and the scan resumes after the
    match, elsewhere one character is copied. *)

Section Scan.

(** The matcher at the current position: the text emitted for the match
    and the input left after it. *)
Variable m : pystr -> option (pystr * pystr).

Fixpoint scan (fuel : nat) (s : pystr) : pystr :=
  match fuel with
  | O => s
  | S fuel' =>
      match m s with
      | Some (out, rest) => out ++ scan fuel' rest
      | None =>
          match s with
          | [] => []
          | c :: s' => c :: scan fuel' s'
          end
      end
  end.

Definition sub_all (s : pystr) : pystr := scan (S (length s)) s.

(** Whether the matcher succeeds at some position of [s]. *)
Fixpoint somewhere (s : pystr) : bool :=
  match m s with
  | Some _ => true
  | None =>
      match s with
      | [] => false
      | _ :: s' => somewhere s'
      end
  end.

End Scan.

(** [s.replace(old, "")] *)
Definition match_literal (old s : pystr) : option (pystr * pystr) :=
  if prefix old s then Some ([], skipn (length old) s) else None.

Definition replace_with_empty (s old : pystr) : pystr :=
  match old with
  | [] => s
  | _ :: _ => sub_all (match_literal old) s
  end.

(** ** The regular expression of [Model.inference] *)

Module Pattern.

Definition chr (a : ascii) : char := N_of_ascii a.

Definition between (lo hi : ascii) (c : char) : bool :=
  (chr lo <=? c)%N && (c <=? chr hi)%N.

(** [[a-zA-Z0-9_]] *)
Definition is_word (c : char) : bool :=
  between "a" "z" c || between "A" "Z" c || between "0" "9" c
  || (c =? chr "_")%N.

(** [\s] on a [str] pattern: the characters for which [str.isspace] holds. *)
Definition is_space (c : char) : bool :=
  ((9 <=? c) && (c <=? 13) || (28 <=? c) && (c <=? 32)
   || (c =? 133) || (c =? 160) || (c =? 5760)
   || (8192 <=? c) && (c <=? 8202)
   || (c =? 8232) || (c =? 8233) || (c =? 8239) || (c =? 8287)
   || (c =? 12288))%N.

(** The longest prefix of characters satisfying [p], and the rest. *)
Fixpoint span (p : char -> bool) (s : pystr) : pystr * pystr :=
  match s with
  | [] => ([], [])
  | c :: s' =>
      if p c then let (a, b) := span p s' in (c :: a, b) else ([], s)
  end.

(** [(<s_[a-zA-Z0-9_]+>)\s] tried at the start of [s]: group 1 and the
    input after the match.  The closing [>] is not in the character class,
    so only the longest run of class characters can be followed by it and
    backtracking finds no other match. *)
Definition match_pattern (s : pystr) : option (pystr * pystr) :=
  if prefix (str "<s_") s then
    let (name, s') := span is_word (skipn 3 s) in
    match name, s' with
    | _ :: _, gt :: w :: rest =>
        if (gt =? chr ">")%N && is_space w
        then Some (str "<s_" ++ name ++ str ">", rest)
        else None
    | _, _ => None
    end
  else None.

(** [re.sub(pattern, r"\1", s)] *)
Definition sub (s : pystr) : pystr := sub_all match_pattern s.

(** [re.search(pattern, s) is not None] *)
Definition search (s : pystr) : bool := somewhere match_pattern s.

(** The texts [<s_name>] and [</s_name>]. *)
Definition open_tag (name : pystr) : pystr := str "<s_" ++ name ++ str ">".

Definition close_tag (name : pystr) : pystr := str "</s_" ++ name ++ str ">".

End Pattern.

(** ** nltk.edit_distance (external collaborator)

    With its default arguments ([substitution_cost=1], no transpositions)
    [edit_distance] is the Levenshtein distance, given here by its
    recurrence. *)

Fixpoint edit_distance (s1 : pystr) : pystr -> nat :=
  match s1 with
  | [] => fun s2 => length s2
  | a :: s1' =>
      fix inner (s2 : pystr) : nat :=
        match s2 with
        | [] => S (length s1')
        | b :: s2' =>
            Nat.min (Nat.min (S (edit_distance s1' s2)) (S (inner s2')))
                    (edit_distance s1' s2' + (if (a =? b)%N then 0 else 1))
        end
  end.

(** ** Logits processors *)

Definition LogitsProcessor : Type :=
  list (list nat) -> list (list score) -> result (list (list score)).

(** [LogitsProcessorList.__call__]: the processors run in list order, each
    on the scores the previous one returned. *)
Fixpoint LogitsProcessorList (processors : list LogitsProcessor)
  : LogitsProcessor :=
  fun input_ids scores =>
    match processors with
    | [] => Ok scores
    | processor :: processors' =>
        scores' <- processor input_ids scores ;;
        LogitsProcessorList processors' input_ids scores'
    end.

(** A pass keeps the masked scores when every score that is negative
    infinity before it is negative infinity after it. *)
Definition keeps_neg_inf (processor : LogitsProcessor) : Prop :=
  forall input_ids scores scores',
    processor input_ids scores = Ok scores' ->
    forall i row, nth_error scores i = Some row ->
      exists row', nth_error scores' i = Some row'
                   /\ forall j, nth_error row j = Some neg_inf ->
                                nth_error row' j = Some neg_inf.

(** ** model.py *)

Module Model.

Record t : Type := mk {
  tokenizer : Tokenizer;
  (** [self.model.config.decoder.max_length] *)
  decoder_max_length : nat
}.

(** [__init__] sets [model.config.decoder.max_length = 1000]. *)
Definition init (tokenizer : Tokenizer) : t := mk tokenizer 1000.

(** [a / b] on Python integers: the exact quotient (which Python rounds to
    the nearest double), or [ZeroDivisionError]. *)
Definition truediv (a b : nat) : result Q :=
  match b with
  | O => Raise ZeroDivisionError
  | S _ => Ok (Z.of_nat a # Pos.of_nat b)%Q
  end.

(** The [score] of one (prediction, answer) pair in [validation_step]. *)
Definition normed_edit_distance (pred answer : pystr) : result Q :=
  truediv (edit_distance pred answer) (Nat.max (length pred) (length answer)).

(** The [logits_processor] argument of [generate] in [inference].  The
    class [RepetitionPenaltyLogitsProcessor] belongs to [transformers] and
    is a parameter here. *)
Definition logits_processor (self : t)
           (RepetitionPenaltyLogitsProcessor : Q -> LogitsProcessor)
  : LogitsProcessor :=
  LogitsProcessorList
    [ InferenceLogitsProcessor.call
        (InferenceLogitsProcessor.init (tokenizer self));
      RepetitionPenaltyLogitsProcessor 1.06%Q ].

(** The body of the loop over the decoded sequences in [inference]: the
    padding token is replaced by the empty string, then the pattern is
    substituted by its group 1. *)
Definition canonicalize (self : t) (seq : pystr) : pystr :=
  let seq_ := replace_with_empty seq (pad_token (tokenizer self)) in
  Pattern.sub seq_.

(** [predictions], from the result of [batch_decode]. *)
Definition predictions (self : t) (decoded : list pystr) : list pystr :=
  map (canonicalize self) decoded.

End Model.

(** ** dataset.py *)

Module Dataset.

Definition ignore_id : Z := (-100)%Z.

(** [tokenizer(target, add_special_tokens=False, max_length=L,
    padding="max_length", truncation=True, return_tensors="pt").input_ids]:
    a tensor of one row, the ids cut after [L] and padded on the right
    up to [L]. *)
Definition tokenizer_call (tokenizer : Tokenizer) (max_length : nat)
           (target : pystr) : list (list nat) :=
  let ids := firstn max_length (encode tokenizer target) in
  [ ids ++ repeat (pad_token_id tokenizer) (max_length - length ids) ].

(** [.squeeze(0)] on a tensor whose first dimension is 1. *)
Definition squeeze0 {A : Type} (tensor : list (list A)) : list A :=
  hd [] tensor.

(** [labels[labels == pad_token_id] = ignore_id] *)
Definition mask_pad (pad_token_id : nat) (labels : list Z) : list Z :=
  map (fun x => if (x =? Z.of_nat pad_token_id)%Z then ignore_id else x)
      labels.

Definition _target_string_to_tensor (model : Model.t) (target : pystr)
  : list Z :=
  let input_ids :=
    squeeze0 (tokenizer_call (Model.tokenizer model)
                             (Model.decoder_max_length model) target) in
  let labels := map Z.of_nat input_ids in
  mask_pad (pad_token_id (Model.tokenizer model)) labels.

End Dataset.

(** ** A small vocabulary

    A tokenizer in the shape [Model.__init__] leaves it: the base vocabulary
    holds [<s>], [<pad>], [</s>], [<unk>] and a few text pieces, and the
    entries of [get_xml_tags] not yet special were added after them. *)

Module Vocab.

Definition base : list pystr :=
  [ str "<s>"; str "<pad>"; str "</s>"; str "<unk>";
    str "A"; str "C"; str "M"; str "E" ].

Definition all_special_tokens : list pystr :=
  [ str "<s>"; str "</s>"; str "<unk>"; str "<pad>" ].

(** [add_special_tokens]: the new tokens get the next free ids. *)
Definition tokens : list pystr :=
  base ++ filter (fun tags => negb (mem tags all_special_tokens))
                 Receipt.get_xml_tags.

Definition unk_token_id : nat := 3.

Fixpoint index_of (x : pystr) (xs : list pystr) (i : nat) : option nat :=
  match xs with
  | [] => None
  | y :: xs' => if eqb x y then Some i else index_of x xs' (S i)
  end.

Definition tok2id (token : pystr) : nat :=
  match index_of token tokens 0 with
  | Some i => i
  | None => unk_token_id
  end.

Definition id2tok (id : nat) : pystr := nth id tokens (str "<unk>").

(** A toy segmentation: one piece per character. *)
Definition pieces (text : pystr) : list nat :=
  map (fun c => tok2id [c]) text.

Definition tokenizer : Tokenizer :=
  mkTokenizer tok2id id2tok (str "<pad>") 1 pieces.

Definition zero : score := S754_zero false.

(** The binary32 value nearest to a positive rational. *)
Definition float_of_Q (q : Q) : score :=
  SFdiv 24 128 (binary_normalize 24 128 (Qnum q) 0 false)
               (binary_normalize 24 128 (Zpos (Qden q)) 0 false).

(** A pass that rewrites, in every row, the scores of the ids already in
    that row of [input_ids] and leaves the other scores alone. *)
Fixpoint adjust_row (f : score -> score) (ids : list nat) (j : nat)
         (row : list score) : list score :=
  match row with
  | [] => []
  | s :: row' =>
      (if existsb (Nat.eqb j) ids then f s else s)
      :: adjust_row f ids (S j) row'
  end.

Fixpoint adjust_rows (f : score -> score) (input_ids : list (list nat))
         (scores : list (list score)) : list (list score) :=
  match scores with
  | [] => []
  | row :: scores' =>
      adjust_row f (hd [] input_ids) 0 row
      :: adjust_rows f (tl input_ids) scores'
  end.

(** [RepetitionPenaltyLogitsProcessor] of [transformers], after its
    documentation: the score of every id already in the row is multiplied
    by the penalty when negative and divided by it otherwise. *)
Definition penalize (penalty s : score) : score :=
  if SFltb s zero then SFmul 24 128 s penalty else SFdiv 24 128 s penalty.

Definition RepetitionPenaltyLogitsProcessor (penalty : Q) : LogitsProcessor :=
  fun input_ids scores =>
    Ok (adjust_rows (penalize (float_of_Q penalty)) input_ids scores).

(** The score [-1.0]. *)
Definition minus_one : score := S754_finite true 1 0.

End Vocab.

(** ** model.py: the scores of a validation batch *)

Module Validation.

(** The outcome of the loop of [validation_step] and of the mean after it:
    a value, the [ValueError] of [zip(..., strict=True)], or an exception
    raised by the body. *)
Inductive outcome (A : Type) : Type :=
| Done (a : A)
| ValueError
| Failed (e : exn).

Arguments Done {A} a.
Arguments ValueError {A}.
Arguments Failed {A} e.

(** The loop over [zip(predictions, targets, strict=True)]: the pairs are
    scored in order, and a list that ends before the other one raises once
    the common pairs are done. *)
Fixpoint scores (predictions targets : list pystr) : outcome (list Q) :=
  match predictions, targets with
  | [], [] => Done []
  | pred :: predictions', answer :: targets' =>
      match Model.normed_edit_distance pred answer with
      | Raise e => Failed e
      | Ok score =>
          match scores predictions' targets' with
          | Done rest => Done (score :: rest)
          | ValueError => ValueError
          | Failed e => Failed e
          end
      end
  | _, _ => ValueError
  end.

(** [sum(scores)] *)
Definition sum (scores : list Q) : Q := fold_left Qplus scores 0%Q.

(** [sum(scores) / len(scores)] *)
Definition average_score (scores : list Q) : outcome Q :=
  match scores with
  | [] => Failed ZeroDivisionError
  | _ :: _ => Done (sum scores / inject_Z (Z.of_nat (length scores)))%Q
  end.

(** [average_score] of [validation_step], from the predictions and the
    targets of the batch. *)
Definition validation_average (predictions targets : list pystr) : outcome Q :=
  match scores predictions targets with
  | Done scores => average_score scores
  | ValueError => ValueError
  | Failed e => Failed e
  end.

End Validation.

(** ** dataset.py: the receipts of [load] *)

Module Loader.

(** [d.get(k, default)] *)
Definition dict_get_default {V : Type} (d : list (pystr * V)) (k : pystr)
           (default : V) : V :=
  match dict_get d k with
  | Ok v => v
  | Raise _ => default
  end.

(** [s.replace(old, new)] *)
Definition match_replace (old new s : pystr) : option (pystr * pystr) :=
  if prefix old s then Some (new, skipn (length old) s) else None.

Definition replace (s old new : pystr) : pystr :=
  match old with
  | [] => new ++ flat_map (fun c => c :: new) s
  | _ :: _ => sub_all (match_replace old new) s
  end.

(** [labels_json["filename"].replace(".txt", ".jpg")] *)
Definition image_name (filename : pystr) : pystr :=
  replace filename (str ".txt") (str ".jpg").

(** One [Receipt(...)] of the list comprehension of [load].  The entry
    [labels_json] is the pair of its file name and its content, the dict
    read from the file; [img] stands for [path / "img" / name].  The
    keyword arguments are evaluated in the order they are written. *)
Definition receipt_of (img : pystr -> pystr)
           (labels_json : pystr * list (pystr * pystr))
  : result Receipt.Receipt :=
  let (filename, content) := labels_json in
  let image_path := img (image_name filename) in
  company <- dict_get content (str "company") ;;
  date <- dict_get content (str "date") ;;
  let address := dict_get_default content (str "address") (str "") in
  total <- dict_get content (str "total") ;;
  Ok (Receipt.mkReceipt image_path company date address total).

(** The list comprehension: the first entry that raises ends it. *)
Fixpoint receipts (img : pystr -> pystr)
         (labels_jsons : list (pystr * list (pystr * pystr)))
  : result (list Receipt.Receipt) :=
  match labels_jsons with
  | [] => Ok []
  | labels_json :: labels_jsons' =>
      receipt <- receipt_of img labels_json ;;
      rest <- receipts img labels_jsons' ;;
      Ok (receipt :: rest)
  end.

End Loader.

(** A text is a subsequence of another one: it is obtained by deleting
    characters. *)
Inductive Subseq : pystr -> pystr -> Prop :=
| Subseq_nil : forall l, Subseq [] l
| Subseq_keep : forall c a b, Subseq a b -> Subseq (c :: a) (c :: b)
| Subseq_drop : forall c a b, Subseq a b -> Subseq a (c :: b).

(** A field the pattern of [inference] leaves alone: no [<] in it and no
    whitespace at its start. *)
Definition plain_field (f : pystr) : Prop :=
  Forall (fun c => c <> Pattern.chr "<") f
  /\ match f with
     | [] => True
     | c :: _ => Pattern.is_space c = false
     end.

(** A file content with the keys [load] reads without a default. *)
Definition has_keys (labels_json : pystr * list (pystr * pystr)) : Prop :=
  forall k, In k [str "company"; str "date"; str "total"] ->
            In k (map fst (snd labels_json)).

(** * Properties *)

(** ** Strings and dict lookup *)

Lemma eqb_eq (a b : pystr) : eqb a b = true <-> a = b.
Proof.
  unfold eqb. destruct (list_eq_dec N.eq_dec a b); split; congruence.
Qed.

Lemma eqb_neq (a b : pystr) : eqb a b = false <-> a <> b.
Proof.
  unfold eqb. destruct (list_eq_dec N.eq_dec a b); split; congruence.
Qed.

Lemma mem_In (x : pystr) (xs : list pystr) : mem x xs = true <-> In x xs.
Proof.
  unfold mem. rewrite existsb_exists. split.
  - intros [y [Hy Hxy]]. apply eqb_eq in Hxy. now subst.
  - intros H. exists x. split; [assumption | now apply eqb_eq].
Qed.

Lemma mem_not_In (x : pystr) (xs : list pystr) :
  mem x xs = false <-> ~ In x xs.
Proof.
  rewrite <- mem_In. destruct (mem x xs); split; congruence.
Qed.

Lemma dict_get_missing {V : Type} (d : list (pystr * V)) (k : pystr) :
  ~ In k (map fst d) -> dict_get d k = Raise KeyError.
Proof.
  induction d as [|[k' v] d IH]; simpl; intros Hk.
  - reflexivity.
  - assert (Hne : eqb k k' = false) by (apply eqb_neq; intuition congruence).
    rewrite Hne. apply IH. tauto.
Qed.

Lemma dict_get_found {V : Type} (d : list (pystr * V)) (k : pystr) (v : V) :
  dict_get d k = Ok v -> In (k, v) d.
Proof.
  induction d as [|[k' v'] d IH]; simpl; intros H.
  - discriminate.
  - destruct (eqb k k') eqn:E.
    + apply eqb_eq in E. left. congruence.
    + right. now apply IH.
Qed.

(** ** receipt.py *)

(** C5. For every receipt, empty fields included, [xml] is the start
    sentinel, then for company, date, address and total in this order the
    open tag, the field text and the close tag, then the end sentinel; the
    receipt ACME / 2024-01-01 / (empty) / 10.00 gives the string of the
    scenario. *)
Theorem xml_canonical_order :
  (forall r : Receipt.Receipt,
      Receipt.xml r =
      concat [ str "<s>";
               str "<s_company>"; Receipt.company r; str "</s_company>";
               str "<s_date>"; Receipt.date r; str "</s_date>";
               str "<s_address>"; Receipt.address r; str "</s_address>";
               str "<s_total>"; Receipt.total r; str "</s_total>";
               str "</s>" ])
  /\ (forall image_path : pystr,
         Receipt.xml
           (Receipt.mkReceipt image_path (str "ACME") (str "2024-01-01")
                              (str "") (str "10.00"))
         = str ("<s><s_company>ACME</s_company><s_date>2024-01-01</s_date>"
                ++ "<s_address></s_address><s_total>10.00</s_total></s>")).
Proof.
  split.
  - intros r. unfold Receipt.xml. cbn [concat].
    rewrite app_nil_r. repeat rewrite <- app_assoc. reflexivity.
  - intros image_path. reflexivity.
Qed.

(** C3 (the code departs from the claim).  The list returned by
    [get_xml_tags] has nine entries, not ten: its last entry is the single
    string [</s_total></s>], and neither [</s_total>] nor [</s>] is an entry
    of its own. *)
Theorem get_xml_tags_merged_entry :
  length Receipt.get_xml_tags = 9
  /\ last Receipt.get_xml_tags [] = str "</s_total></s>"
  /\ ~ In (str "</s_total>") Receipt.get_xml_tags
  /\ ~ In (str "</s>") Receipt.get_xml_tags.
Proof.
  split; [reflexivity|]. split; [reflexivity|].
  split; apply mem_not_In; reflexivity.
Qed.

(** ** inference_processor.py: the transition table *)

(** C2. [_candidate_tags] returns for each of the eight keys the one
    successor of the table, and raises [KeyError] for every other string,
    [</s_total>] among them. *)
Theorem candidate_tags_table :
  InferenceLogitsProcessor._candidate_tags (str "<s>")
    = Ok [str "<s_company>"]
  /\ InferenceLogitsProcessor._candidate_tags (str "<s_company>")
    = Ok [str "</s_company>"]
  /\ InferenceLogitsProcessor._candidate_tags (str "</s_company>")
    = Ok [str "<s_date>"]
  /\ InferenceLogitsProcessor._candidate_tags (str "<s_date>")
    = Ok [str "</s_date>"]
  /\ InferenceLogitsProcessor._candidate_tags (str "</s_date>")
    = Ok [str "<s_address>"]
  /\ InferenceLogitsProcessor._candidate_tags (str "<s_address>")
    = Ok [str "</s_address>"]
  /\ InferenceLogitsProcessor._candidate_tags (str "</s_address>")
    = Ok [str "<s_total>"]
  /\ InferenceLogitsProcessor._candidate_tags (str "<s_total>")
    = Ok [str "</s>"]
  /\ InferenceLogitsProcessor._candidate_tags (str "</s_total>")
    = Raise KeyError
  /\ (forall tag : pystr,
         ~ In tag [ str "<s>"; str "<s_company>"; str "</s_company>";
                    str "<s_date>"; str "</s_date>"; str "<s_address>";
                    str "</s_address>"; str "<s_total>" ] ->
         InferenceLogitsProcessor._candidate_tags tag = Raise KeyError).
Proof.
  repeat (split; [reflexivity|]).
  intros tag Htag. unfold InferenceLogitsProcessor._candidate_tags.
  apply dict_get_missing. exact Htag.
Qed.

(** The end sentinel [</s>] is not a key of the table. *)
Lemma candidate_tags_table_witness :
  ~ In (str "</s>")
       [ str "<s>"; str "<s_company>"; str "</s_company>";
         str "<s_date>"; str "</s_date>"; str "<s_address>";
         str "</s_address>"; str "<s_total>" ]
  /\ InferenceLogitsProcessor._candidate_tags (str "</s>") = Raise KeyError.
Proof.
  assert (H : ~ In (str "</s>")
       [ str "<s>"; str "<s_company>"; str "</s_company>";
         str "<s_date>"; str "</s_date>"; str "<s_address>";
         str "</s_address>"; str "<s_total>" ])
    by (apply mem_not_In; reflexivity).
  split; [exact H|].
  apply (proj2 (proj2 (proj2 (proj2 (proj2 (proj2 (proj2 (proj2 (proj2
           candidate_tags_table))))))))).
  exact H.
Defined.

(** ** Index assignment *)

Lemma set_nth_length {A : Type} (i : nat) (v : A) (l : list A) :
  length (set_nth i v l) = length l.
Proof.
  revert i. induction l as [|x l IH]; intros [|i]; simpl; auto.
Qed.

Lemma nth_error_set_nth_eq {A : Type} (i : nat) (v : A) (l : list A) :
  i < length l -> nth_error (set_nth i v l) i = Some v.
Proof.
  revert i. induction l as [|x l IH]; intros [|i]; simpl; intros H;
    try lia; auto.
  apply IH. lia.
Qed.

Lemma nth_error_set_nth_neq {A : Type} (i j : nat) (v : A) (l : list A) :
  i <> j -> nth_error (set_nth i v l) j = nth_error l j.
Proof.
  revert i j. induction l as [|x l IH]; intros [|i] [|j]; simpl; intros H;
    try congruence; auto.
Qed.

Lemma index_fill_spec {A : Type} (idx : list nat) (v : A) :
  forall row row' : list A,
    index_fill row idx v = Ok row' ->
    length row' = length row
    /\ (forall j, In j idx -> j < length row /\ nth_error row' j = Some v)
    /\ (forall j, ~ In j idx -> nth_error row' j = nth_error row j).
Proof.
  induction idx as [|i idx IH]; simpl; intros row row' H.
  - injection H as <-. repeat split; intros; tauto.
  - destruct (i <? length row) eqn:Hi; [|discriminate].
    apply Nat.ltb_lt in Hi.
    destruct (IH _ _ H) as (Hlen & Hin & Hout).
    rewrite set_nth_length in Hlen, Hin.
    repeat split.
    + exact Hlen.
    + destruct H0 as [<-|Hj]; [assumption | now apply Hin].
    + destruct (in_dec Nat.eq_dec j idx) as [Hj|Hj].
      * now apply Hin.
      * destruct H0 as [<-|Hj']; [|contradiction].
        rewrite (Hout _ Hj). now apply nth_error_set_nth_eq.
    + intros j Hj. rewrite Hout by tauto.
      apply nth_error_set_nth_neq. tauto.
Qed.

Lemma index_fill_total {A : Type} (idx : list nat) (v : A) :
  forall row : list A,
    (forall j, In j idx -> j < length row) ->
    exists row', index_fill row idx v = Ok row'.
Proof.
  induction idx as [|i idx IH]; simpl; intros row H.
  - now exists row.
  - assert (Hi : (i <? length row) = true) by (apply Nat.ltb_lt; auto).
    rewrite Hi. apply IH. intros j Hj. rewrite set_nth_length. auto.
Qed.

(** ** inference_processor.py: the mask *)

Section Mask.

Import InferenceLogitsProcessor.

Variable self : InferenceLogitsProcessor.t.

Lemma forbidden_In (candidates : list pystr) (j : nat) :
  In j (forbidden self candidates) <->
  In j (special_token_ids self)
  /\ ~ In (convert_ids_to_tokens (tokenizer self) j) candidates.
Proof.
  unfold forbidden. rewrite filter_In, negb_true_iff, mem_not_In. tauto.
Qed.

(** What a successful row of [__call__] does: the last tag is found and is
    a key of the table, the scores at the forbidden ids become negative
    infinity and every other score is left as it was. *)
Lemma call_row_spec (ids : list nat) (row row' : list score) :
  call_row self ids row = Ok row' ->
  exists last_tag candidates,
    _last_tag self ids = Ok last_tag
    /\ _candidate_tags last_tag = Ok candidates
    /\ length row' = length row
    /\ (forall j, In j (forbidden self candidates) ->
                  nth_error row' j = Some neg_inf)
    /\ (forall j, ~ In j (forbidden self candidates) ->
                  nth_error row' j = nth_error row j).
Proof.
  unfold call_row. intros H.
  destruct (_last_tag self ids) as [last_tag|e] eqn:Hlast; [|discriminate].
  cbn [bind] in H.
  destruct (_candidate_tags last_tag) as [candidates|e] eqn:Hcand;
    [|discriminate].
  cbn [bind] in H. exists last_tag, candidates.
  destruct (index_fill_spec _ _ _ H) as (Hlen & Hin & Hout).
  repeat split; auto. intros j Hj. now apply Hin.
Qed.

(** Ids outside [special_token_ids] are never written. *)
Lemma call_row_untouched (ids : list nat) (row row' : list score) (j : nat) :
  call_row self ids row = Ok row' ->
  ~ In j (special_token_ids self) ->
  nth_error row' j = nth_error row j.
Proof.
  intros H Hj.
  destruct (call_row_spec _ _ H) as (t & c & _ & _ & _ & _ & Hout).
  apply Hout. rewrite forbidden_In. tauto.
Qed.

(** [__call__] treats row [i] of the scores with row [i] of the ids. *)
Lemma call_rows (input_ids : list (list nat)) :
  forall (scores out : list (list score)),
    call self input_ids scores = Ok out ->
    forall i ids, nth_error input_ids i = Some ids ->
      exists row row',
        nth_error scores i = Some row
        /\ nth_error out i = Some row'
        /\ call_row self ids row = Ok row'.
Proof.
  induction input_ids as [|ids0 input_ids IH]; intros scores out H i ids Hi.
  - destruct i; discriminate.
  - simpl in H. destruct scores as [|row0 scores].
    + destruct (_last_tag self ids0) as [t|e]; [|discriminate].
      cbn [bind] in H.
      destruct (_candidate_tags t); discriminate.
    + destruct (call_row self ids0 row0) as [row0'|e] eqn:H0; [|discriminate].
      cbn [bind] in H.
      destruct (call self input_ids scores) as [rest|e] eqn:Hrest;
        [|discriminate].
      cbn [bind] in H. injection H as <-.
      destruct i as [|i]; simpl in Hi |- *.
      * injection Hi as <-. exists row0, row0'. auto.
      * eapply IH; eauto.
Qed.

End Mask.

(** The merged entry of [get_xml_tags] is a successor of no key: in every
    row that [__call__] completes, its score is negative infinity. *)
Lemma merged_entry_masked (tokenizer : Tokenizer)
      (ids : list nat) (row row' : list score) :
  let self := InferenceLogitsProcessor.init tokenizer in
  let merged := str "</s_total></s>" in
  convert_ids_to_tokens tokenizer (convert_tokens_to_ids tokenizer merged)
  = merged ->
  InferenceLogitsProcessor.call_row self ids row = Ok row' ->
  nth_error row' (convert_tokens_to_ids tokenizer merged) = Some neg_inf.
Proof.
  cbv zeta. intros Hround Hcall.
  destruct (call_row_spec _ _ _ Hcall)
    as (last_tag & candidates & _ & Hcand & _ & Hin & _).
  apply Hin. apply forbidden_In. split.
  - cbn [InferenceLogitsProcessor.init
           InferenceLogitsProcessor.special_token_ids].
    apply in_map. apply mem_In. reflexivity.
  - cbn [InferenceLogitsProcessor.init InferenceLogitsProcessor.tokenizer].
    rewrite Hround.
    apply dict_get_found in Hcand.
    unfold InferenceLogitsProcessor.transitions in Hcand.
    cbn [In] in Hcand.
    repeat (destruct Hcand as [Hcand|Hcand];
            [injection Hcand as _ <-; apply mem_not_In; reflexivity|]).
    contradiction.
Qed.

(** C1 (the code departs from the claim).  With the last tag
    [</s_company>] the mask writes negative infinity at the ids of the
    entries of [get_xml_tags] other than [<s_date>], and the id of the end
    sentinel [</s>] is not among them: its score stays as it was. *)
Theorem call_after_close_company_spares_end_sentinel :
  let self := InferenceLogitsProcessor.init Vocab.tokenizer in
  InferenceLogitsProcessor._last_tag self [0; 8; 4; 9] = Ok (str "</s_company>")
  /\ InferenceLogitsProcessor._candidate_tags (str "</s_company>")
     = Ok [str "<s_date>"]
  /\ convert_tokens_to_ids Vocab.tokenizer (str "<s_date>") = 10
  /\ convert_tokens_to_ids Vocab.tokenizer (str "</s>") = 2
  /\ exists row',
      InferenceLogitsProcessor.call self [[0; 8; 4; 9]] [repeat Vocab.zero 16]
      = Ok [row']
      /\ nth_error row' 2 = Some Vocab.zero
      /\ nth_error row' 10 = Some Vocab.zero
      /\ Forall (fun j => nth_error row' j = Some neg_inf)
                [0; 8; 9; 11; 12; 13; 14; 15].
Proof.
  cbv zeta. repeat (split; [reflexivity|]).
  eexists. split; [vm_compute; reflexivity|].
  split; [reflexivity|]. split; [reflexivity|].
  repeat constructor.
Qed.

(** C10 (the code departs from the claim).  Neither [</s_total>] nor the
    merged entry is a successor in the table, but of the two only the merged
    entry is in [special_tokens]: with the last tag [<s_total>] the score at
    the id [convert_tokens_to_ids] gives for [</s_total>] is left as it was,
    while the score of the merged entry becomes negative infinity. *)
Theorem call_never_masks_close_total :
  let self := InferenceLogitsProcessor.init Vocab.tokenizer in
  forallb (fun kv => negb (mem (str "</s_total>") (snd kv))
                     && negb (mem (str "</s_total></s>") (snd kv)))
          InferenceLogitsProcessor.transitions = true
  /\ mem (str "</s_total>") (InferenceLogitsProcessor.special_tokens self)
     = false
  /\ mem (str "</s_total></s>") (InferenceLogitsProcessor.special_tokens self)
     = true
  /\ convert_tokens_to_ids Vocab.tokenizer (str "</s_total>") = 3
  /\ convert_tokens_to_ids Vocab.tokenizer (str "</s_total></s>") = 15
  /\ exists row',
      InferenceLogitsProcessor.call
        self [[0; 8; 4; 9; 10; 11; 12; 13; 14]] [repeat Vocab.zero 16]
      = Ok [row']
      /\ nth_error row' 3 = Some Vocab.zero
      /\ nth_error row' 15 = Some neg_inf.
Proof.
  cbv zeta. repeat (split; [reflexivity|]).
  eexists. split; [vm_compute; reflexivity|].
  split; reflexivity.
Qed.

(** ** model.py: the order of the logits processors *)

Lemma adjust_row_keeps (f : score -> score) (ids : list nat) :
  f neg_inf = neg_inf ->
  forall row k j,
    nth_error row j = Some neg_inf ->
    nth_error (Vocab.adjust_row f ids k row) j = Some neg_inf.
Proof.
  intros Hf. induction row as [|s row IH]; intros k [|j] H; simpl in *;
    try discriminate.
  - injection H as ->. destruct (existsb (Nat.eqb k) ids); congruence.
  - now apply IH.
Qed.

Lemma adjust_rows_keeps (f : score -> score) :
  f neg_inf = neg_inf ->
  keeps_neg_inf (fun input_ids scores =>
                   Ok (Vocab.adjust_rows f input_ids scores)).
Proof.
  intros Hf input_ids scores scores' H. injection H as <-.
  revert input_ids. induction scores as [|row0 scores IH];
    intros input_ids [|i] row Hi; simpl in *; try discriminate.
  - injection Hi as ->. eexists. split; [reflexivity|].
    intros j Hj. now apply adjust_row_keeps.
  - now apply IH.
Qed.

Lemma repetition_penalty_keeps :
  keeps_neg_inf (Vocab.RepetitionPenaltyLogitsProcessor 1.06%Q).
Proof.
  apply adjust_rows_keeps. reflexivity.
Qed.

(** C9 (the code departs from the claim).  After [</s_company>] the end
    sentinel [</s>] is not a candidate, yet its id is not in the forbidden
    list: with the raw score 0.0 for it and -1.0 for every other id, it
    reaches selection with 0.0, above every other score, after the mask and
    the repetition penalty.  The mask is the first processor of the list;
    running it last gives the same scores. *)
Theorem logits_processor_leaves_end_sentinel_selectable :
  let self := Model.init Vocab.tokenizer in
  let mask := InferenceLogitsProcessor.init Vocab.tokenizer in
  let penalty := Vocab.RepetitionPenaltyLogitsProcessor in
  let input_ids := [[0; 8; 4; 9]] in
  let scores := [set_nth 2 Vocab.zero (repeat Vocab.minus_one 16)] in
  InferenceLogitsProcessor._last_tag mask [0; 8; 4; 9]
  = Ok (str "</s_company>")
  /\ InferenceLogitsProcessor._candidate_tags (str "</s_company>")
     = Ok [str "<s_date>"]
  /\ mem (str "</s>") [str "<s_date>"] = false
  /\ convert_tokens_to_ids Vocab.tokenizer (str "</s>") = 2
  /\ ~ In 2 (InferenceLogitsProcessor.forbidden mask [str "<s_date>"])
  /\ exists row,
      Model.logits_processor self penalty input_ids scores = Ok [row]
      /\ LogitsProcessorList
           [penalty 1.06%Q; InferenceLogitsProcessor.call mask]
           input_ids scores = Ok [row]
      /\ nth_error row 2 = Some Vocab.zero
      /\ Vocab.zero <> neg_inf
      /\ Forall (fun s => SFleb s Vocab.zero = true) row.
Proof.
  cbv zeta. repeat (split; [reflexivity|]).
  split; [vm_compute; intuition discriminate|].
  eexists. split; [vm_compute; reflexivity|].
  split; [vm_compute; reflexivity|].
  split; [reflexivity|]. split; [discriminate|].
  repeat constructor.
Qed.

(** X24.  In one generation step the mask runs first and the repetition
    penalty second, on the masked scores.  When the penalty pass keeps
    negative infinity, every id in the forbidden list of the row's last tag
    reaches selection with the score negative infinity. *)
Theorem grammar_mask_then_penalty
        (self : Model.t) (penalty : Q -> LogitsProcessor) :
  let mask :=
    InferenceLogitsProcessor.init (Model.tokenizer self) in
  (forall input_ids scores,
      Model.logits_processor self penalty input_ids scores
      = (masked <- InferenceLogitsProcessor.call mask input_ids scores ;;
         penalty 1.06%Q input_ids masked))
  /\ (keeps_neg_inf (penalty 1.06%Q) ->
      forall input_ids scores out,
        Model.logits_processor self penalty input_ids scores = Ok out ->
        forall i ids last_tag candidates,
          nth_error input_ids i = Some ids ->
          InferenceLogitsProcessor._last_tag mask ids = Ok last_tag ->
          InferenceLogitsProcessor._candidate_tags last_tag = Ok candidates ->
          exists row,
            nth_error out i = Some row
            /\ forall j,
                In j (InferenceLogitsProcessor.forbidden mask candidates) ->
                nth_error row j = Some neg_inf).
Proof.
  cbv zeta.
  assert (Heq : forall input_ids scores,
      Model.logits_processor self penalty input_ids scores
      = (masked <- InferenceLogitsProcessor.call
                     (InferenceLogitsProcessor.init (Model.tokenizer self))
                     input_ids scores ;;
         penalty 1.06%Q input_ids masked)).
  { intros input_ids scores. unfold Model.logits_processor.
    cbn [LogitsProcessorList].
    destruct (InferenceLogitsProcessor.call _ input_ids scores) as [masked|e];
      cbn [bind]; [|reflexivity].
    destruct (penalty 1.06%Q input_ids masked); reflexivity. }
  split; [exact Heq|].
  intros Hkeep input_ids scores out Hout i ids last_tag candidates Hi Hlast Hcand.
  rewrite Heq in Hout.
  destruct (InferenceLogitsProcessor.call _ input_ids scores)
    as [masked|e] eqn:Hmask; [|discriminate].
  cbn [bind] in Hout.
  destruct (call_rows _ _ _ Hmask _ Hi) as (row & row' & _ & Hrow' & Hcall).
  destruct (call_row_spec _ _ _ Hcall)
    as (last_tag' & candidates' & Hlast' & Hcand' & _ & Hin & _).
  assert (last_tag' = last_tag) by congruence. subst last_tag'.
  assert (candidates' = candidates) by congruence. subst candidates'.
  destruct (Hkeep _ _ _ Hout _ _ Hrow') as (row'' & Hrow'' & Hinf).
  exists row''. split; [exact Hrow''|].
  intros j Hj. apply Hinf. now apply Hin.
Qed.

(** After [</s_company>], with the repetition penalty of [transformers]. *)
Lemma grammar_mask_then_penalty_witness :
  let self := Model.init Vocab.tokenizer in
  let mask := InferenceLogitsProcessor.init Vocab.tokenizer in
  let penalty := Vocab.RepetitionPenaltyLogitsProcessor in
  keeps_neg_inf (penalty 1.06%Q)
  /\ InferenceLogitsProcessor._last_tag mask [0; 8; 4; 9]
     = Ok (str "</s_company>")
  /\ InferenceLogitsProcessor._candidate_tags (str "</s_company>")
     = Ok [str "<s_date>"]
  /\ exists out,
      Model.logits_processor self penalty [[0; 8; 4; 9]]
                             [repeat Vocab.minus_one 16] = Ok out
      /\ exists row,
          nth_error out 0 = Some row
          /\ forall j,
              In j (InferenceLogitsProcessor.forbidden mask [str "<s_date>"]) ->
              nth_error row j = Some neg_inf.
Proof.
  cbv zeta.
  split; [exact repetition_penalty_keeps|].
  split; [reflexivity|]. split; [reflexivity|].
  eexists. split; [vm_compute; reflexivity|].
  apply (proj2 (grammar_mask_then_penalty (Model.init Vocab.tokenizer)
                  Vocab.RepetitionPenaltyLogitsProcessor)
               repetition_penalty_keeps [[0; 8; 4; 9]]
               [repeat Vocab.minus_one 16] _ eq_refl 0 [0; 8; 4; 9]
               (str "</s_company>") [str "<s_date>"]
               eq_refl eq_refl eq_refl).
Defined.

(** ** dataset.py: the label tensor *)

Lemma tokenizer_call_row (tokenizer : Tokenizer) (L : nat) (target : pystr) :
  length (Dataset.squeeze0 (Dataset.tokenizer_call tokenizer L target)) = L.
Proof.
  unfold Dataset.squeeze0, Dataset.tokenizer_call. cbn [hd].
  rewrite length_app, repeat_length, length_firstn. lia.
Qed.

(** C4. The label tensor has length [L]; a position holding the padding id
    becomes [-100], every other position keeps its id, so [-100] stands only
    where the padding id stood; ids past [L] are cut off on the right and
    the call returns all the same. *)
Theorem target_string_to_tensor_labels (model : Model.t) (target : pystr) :
  let L := Model.decoder_max_length model in
  let tokenizer := Model.tokenizer model in
  let input_ids :=
    Dataset.squeeze0 (Dataset.tokenizer_call tokenizer L target) in
  let labels := Dataset._target_string_to_tensor model target in
  Dataset.ignore_id = (-100)%Z
  /\ length labels = L
  /\ length input_ids = L
  /\ (forall i id,
         nth_error input_ids i = Some id ->
         nth_error labels i
         = Some (if id =? pad_token_id tokenizer
                 then Dataset.ignore_id else Z.of_nat id))
  /\ (forall i,
         nth_error labels i = Some Dataset.ignore_id ->
         nth_error input_ids i = Some (pad_token_id tokenizer))
  /\ (L <= length (encode tokenizer target) ->
      input_ids = firstn L (encode tokenizer target))
  /\ (length (encode tokenizer target) <= L ->
      input_ids
      = encode tokenizer target
        ++ repeat (pad_token_id tokenizer)
                  (L - length (encode tokenizer target))).
Proof.
  cbv zeta.
  assert (Hnth : forall i id,
    nth_error (Dataset.squeeze0
                 (Dataset.tokenizer_call (Model.tokenizer model)
                    (Model.decoder_max_length model) target)) i = Some id ->
    nth_error (Dataset._target_string_to_tensor model target) i
    = Some (if id =? pad_token_id (Model.tokenizer model)
            then Dataset.ignore_id else Z.of_nat id)).
  { intros i id Hi. unfold Dataset._target_string_to_tensor, Dataset.mask_pad.
    rewrite map_map. rewrite nth_error_map, Hi. cbn [option_map]. f_equal.
    destruct (id =? pad_token_id (Model.tokenizer model)) eqn:E.
    - apply Nat.eqb_eq in E. subst. now rewrite Z.eqb_refl.
    - apply Nat.eqb_neq in E.
      destruct (Z.eqb_spec (Z.of_nat id)
                  (Z.of_nat (pad_token_id (Model.tokenizer model)))); [lia|].
      reflexivity. }
  split; [reflexivity|]. split.
  { unfold Dataset._target_string_to_tensor, Dataset.mask_pad.
    rewrite !length_map. apply tokenizer_call_row. }
  split; [apply tokenizer_call_row|]. split; [exact Hnth|]. split.
  { intros i Hi.
    destruct (nth_error (Dataset.squeeze0
                 (Dataset.tokenizer_call (Model.tokenizer model)
                    (Model.decoder_max_length model) target)) i)
      as [id|] eqn:Hid.
    - rewrite (Hnth _ _ Hid) in Hi. injection Hi as Hi.
      destruct (id =? pad_token_id (Model.tokenizer model)) eqn:E.
      + apply Nat.eqb_eq in E. now subst.
      + unfold Dataset.ignore_id in Hi. lia.
    - apply nth_error_None in Hid.
      assert (Hlt : i < length (Dataset._target_string_to_tensor model target))
        by (apply nth_error_Some; congruence).
      unfold Dataset._target_string_to_tensor, Dataset.mask_pad in Hlt.
      rewrite !length_map in Hlt. lia. }
  unfold Dataset.squeeze0, Dataset.tokenizer_call. cbn [hd]. split.
  - intros HL. rewrite length_firstn.
    replace (_ - _) with 0 by lia. apply app_nil_r.
  - intros HL. rewrite firstn_all2 by exact HL. reflexivity.
Qed.

(** The text ACME with [L = 3] (cut) and with [L = 6] (padded). *)
Lemma target_string_to_tensor_labels_witness :
  Dataset._target_string_to_tensor (Model.mk Vocab.tokenizer 3) (str "ACME")
  = [4; 5; 6]%Z
  /\ Dataset._target_string_to_tensor (Model.mk Vocab.tokenizer 6) (str "ACME")
     = [4; 5; 6; 7; -100; -100]%Z
  /\ nth_error
       (Dataset._target_string_to_tensor (Model.mk Vocab.tokenizer 6)
                                         (str "ACME")) 4
     = Some Dataset.ignore_id
  /\ Dataset.squeeze0 (Dataset.tokenizer_call Vocab.tokenizer 3 (str "ACME"))
     = firstn 3 (encode Vocab.tokenizer (str "ACME"))
  /\ Dataset.squeeze0 (Dataset.tokenizer_call Vocab.tokenizer 6 (str "ACME"))
     = encode Vocab.tokenizer (str "ACME") ++ repeat 1 2.
Proof.
  split; [reflexivity|]. split; [reflexivity|].
  pose proof (target_string_to_tensor_labels
                (Model.mk Vocab.tokenizer 6) (str "ACME")) as H6.
  pose proof (target_string_to_tensor_labels
                (Model.mk Vocab.tokenizer 3) (str "ACME")) as H3.
  cbv zeta in H3, H6.
  destruct H6 as (_ & _ & _ & Hnth & _ & _ & Hpad).
  destruct H3 as (_ & _ & _ & _ & _ & Hcut & _).
  split; [exact (Hnth 4 1 eq_refl)|]. split.
  - apply Hcut. vm_compute. lia.
  - apply Hpad. vm_compute. lia.
Defined.

(** ** model.py: the normalised edit distance *)

Lemma edit_distance_le_max (s1 s2 : pystr) :
  edit_distance s1 s2 <= Nat.max (length s1) (length s2).
Proof.
  revert s2. induction s1 as [|a s1 IH]; intros s2.
  - simpl. lia.
  - induction s2 as [|b s2 IHs2].
    + simpl. lia.
    + cbn [edit_distance]. fold (edit_distance s1).
      etransitivity; [apply Nat.le_min_r|].
      specialize (IH s2). cbn [length].
      destruct (a =? b)%N; lia.
Qed.

(** C8, counterexample.  For two empty strings the division raises
    [ZeroDivisionError]; no value is returned. *)
Lemma normed_edit_distance_empty_raises :
  Model.normed_edit_distance (str "") (str "") = Raise ZeroDivisionError
  /\ Model.normed_edit_distance (str "") (str "") <> Ok 0%Q.
Proof.
  split; [reflexivity | discriminate].
Qed.

(** C8, amended.  For two strings that are not both empty the score is the
    edit distance divided by the length of the longer string, a value
    between 0 and 1; for two empty strings the division raises
    [ZeroDivisionError]. *)
Theorem normed_edit_distance_range (pred answer : pystr) :
  (pred <> [] \/ answer <> [] ->
   exists q : Q,
     Model.normed_edit_distance pred answer = Ok q
     /\ q = (Z.of_nat (edit_distance pred answer)
             # Pos.of_nat (Nat.max (length pred) (length answer)))%Q
     /\ (0 <= q)%Q /\ (q <= 1)%Q)
  /\ (pred = [] /\ answer = [] ->
      Model.normed_edit_distance pred answer = Raise ZeroDivisionError).
Proof.
  split.
  - intros Hne. unfold Model.normed_edit_distance, Model.truediv.
    pose proof (edit_distance_le_max pred answer) as Hle.
    destruct (Nat.max (length pred) (length answer)) as [|n] eqn:Hmax.
    + destruct pred, answer; simpl in Hmax; try lia.
      destruct Hne; congruence.
    + eexists. split; [reflexivity|]. split; [reflexivity|].
      unfold Qle. cbn [Qnum Qden].
      rewrite <- Pos.of_nat_succ, Zpos_P_of_succ_nat. lia.
  - intros [-> ->]. reflexivity.
Qed.

(** One insertion turns 10.0 into 10.00, the longer of the two has five
    characters. *)
Lemma normed_edit_distance_range_witness :
  (str "10.0" <> [] \/ str "10.00" <> [])
  /\ exists q : Q,
      Model.normed_edit_distance (str "10.0") (str "10.00") = Ok q
      /\ q = (1 # 5)%Q /\ (0 <= q)%Q /\ (q <= 1)%Q.
Proof.
  assert (H : str "10.0" <> [] \/ str "10.00" <> [])
    by (left; discriminate).
  split; [exact H|].
  destruct (proj1 (normed_edit_distance_range (str "10.0") (str "10.00")) H)
    as (q & Hq & Hval & H0 & H1).
  exists q. split; [exact Hq|]. split; [|split; assumption].
  rewrite Hval. reflexivity.
Defined.

(** ** Leftmost substitution *)

Section ScanFacts.

Variable m : pystr -> option (pystr * pystr).

(** A match is never empty: the scan resumes on a shorter text. *)
Hypothesis m_consumes :
  forall s out rest, m s = Some (out, rest) -> length rest < length s.

Lemma scan_enough (n n' : nat) :
  forall s, length s < n -> length s < n' -> scan m n s = scan m n' s.
Proof.
  revert n'. induction n as [|n IH]; intros [|n'] s Hn Hn'; try lia.
  cbn [scan]. destruct (m s) as [[out rest]|] eqn:Hm.
  - apply m_consumes in Hm. f_equal. apply IH; lia.
  - destruct s as [|c s]; [reflexivity|]. cbn [length] in *.
    f_equal. apply IH; lia.
Qed.

Lemma sub_all_nil : sub_all m [] = [].
Proof.
  unfold sub_all. cbn [scan length].
  destruct (m []) as [[out rest]|] eqn:Hm; [|reflexivity].
  apply m_consumes in Hm. cbn [length] in Hm. lia.
Qed.

Lemma sub_all_match (s out rest : pystr) :
  m s = Some (out, rest) -> sub_all m s = out ++ sub_all m rest.
Proof.
  intros Hm. unfold sub_all at 1. cbn [scan]. rewrite Hm.
  apply m_consumes in Hm. f_equal. apply scan_enough; lia.
Qed.

Lemma sub_all_skip (c : char) (s : pystr) :
  m (c :: s) = None -> sub_all m (c :: s) = c :: sub_all m s.
Proof.
  intros Hm. unfold sub_all at 1. cbn [scan]. rewrite Hm. reflexivity.
Qed.

Lemma sub_all_fixed (s : pystr) :
  somewhere m s = false -> sub_all m s = s.
Proof.
  induction s as [|c s IH]; cbn [somewhere]; intros H.
  - apply sub_all_nil.
  - destruct (m (c :: s)) eqn:Hm; [discriminate|].
    rewrite sub_all_skip by assumption. f_equal. now apply IH.
Qed.

(** A match emits less than it reads. *)
Hypothesis m_shrinks :
  forall s out rest,
    m s = Some (out, rest) -> length out + length rest < length s.

Lemma sub_all_length (n : nat) :
  forall s, length s <= n ->
    length (sub_all m s) <= length s
    /\ (somewhere m s = true -> length (sub_all m s) < length s).
Proof.
  induction n as [|n IH]; intros s Hn.
  - destruct s; [|cbn [length] in Hn; lia].
    rewrite sub_all_nil. split; [lia|].
    cbn [somewhere]. destruct (m []) as [[out rest]|] eqn:Hm.
    + apply m_consumes in Hm. cbn [length] in Hm. lia.
    + discriminate.
  - destruct (m s) as [[out rest]|] eqn:Hm.
    + rewrite (sub_all_match Hm), length_app.
      pose proof (m_shrinks Hm) as Hs.
      destruct (IH rest) as [Hle _]; [lia|]. split; [lia|]. intros _. lia.
    + destruct s as [|c s].
      * rewrite sub_all_nil. split; [lia|].
        cbn [somewhere]. rewrite Hm. discriminate.
      * rewrite (sub_all_skip Hm). cbn [length somewhere] in *.
        rewrite Hm. destruct (IH s) as [Hle Hlt]; [lia|].
        split; [lia|]. intros H. apply Hlt in H. lia.
Qed.

Lemma sub_all_fixed_iff (s : pystr) :
  sub_all m s = s <-> somewhere m s = false.
Proof.
  split; [|apply sub_all_fixed].
  intros H. destruct (somewhere m s) eqn:E; [|reflexivity].
  destruct (sub_all_length s (le_n (length s))) as [_ Hlt].
  specialize (Hlt E). rewrite H in Hlt. lia.
Qed.

End ScanFacts.

(** ** [str.replace] with the empty string *)

Lemma prefix_app (p t : pystr) : prefix p (p ++ t) = true.
Proof.
  induction p as [|a p IH]; simpl; [reflexivity|].
  now rewrite N.eqb_refl, IH.
Qed.

Lemma prefix_true (p : pystr) :
  forall s, prefix p s = true -> s = p ++ skipn (length p) s.
Proof.
  induction p as [|a p IH]; intros [|b s]; simpl; intros H;
    try reflexivity; try discriminate.
  apply andb_true_iff in H as [Hab Hp]. apply N.eqb_eq in Hab. subst b.
  f_equal. now apply IH.
Qed.

Lemma prefix_long (p : pystr) :
  forall u v, length p <= length u -> prefix p (u ++ v) = prefix p u.
Proof.
  induction p as [|a p IH]; intros [|b u] v; simpl; intros H;
    try reflexivity; try lia.
  f_equal. apply IH. lia.
Qed.

Lemma skipn_prefix (p t : pystr) : skipn (length p) (p ++ t) = t.
Proof.
  induction p as [|a p IH]; simpl; auto.
Qed.

Lemma match_literal_shrinks (old : pystr) :
  old <> [] ->
  forall s out rest,
    match_literal old s = Some (out, rest) ->
    length out + length rest < length s.
Proof.
  intros Hold s out rest. unfold match_literal.
  destruct (prefix old s) eqn:Hp; [|discriminate].
  intros H. injection H as <- <-.
  apply prefix_true in Hp. rewrite Hp at 2.
  rewrite length_app. destruct old; [congruence|]. cbn [length]. lia.
Qed.

Lemma match_literal_consumes (old : pystr) :
  old <> [] ->
  forall s out rest,
    match_literal old s = Some (out, rest) -> length rest < length s.
Proof.
  intros Hold s out rest H.
  pose proof (match_literal_shrinks Hold _ H). lia.
Qed.

Lemma somewhere_literal (old s : pystr) :
  somewhere (match_literal old) s = occurs old s.
Proof.
  induction s as [|c s IH]; cbn [somewhere occurs]; unfold match_literal;
    destruct (prefix old _); cbn [orb]; auto.
Qed.

(** A text in which [old] does not occur is returned as it is, and for a
    non-empty [old] no other text is. *)
Lemma replace_fixed (s old : pystr) :
  occurs old s = false -> replace_with_empty s old = s.
Proof.
  intros H. destruct old as [|a old]; [reflexivity|].
  cbn [replace_with_empty]. apply sub_all_fixed.
  - apply match_literal_consumes. discriminate.
  - now rewrite somewhere_literal.
Qed.

Lemma replace_fixed_iff (s old : pystr) :
  old <> [] -> (replace_with_empty s old = s <-> occurs old s = false).
Proof.
  intros Hold. rewrite <- somewhere_literal.
  destruct old as [|a old]; [congruence|]. cbn [replace_with_empty].
  apply sub_all_fixed_iff.
  - now apply match_literal_consumes.
  - now apply match_literal_shrinks.
Qed.

Lemma replace_length (s old : pystr) :
  length (replace_with_empty s old) <= length s.
Proof.
  destruct old as [|a old]; [reflexivity|]. cbn [replace_with_empty].
  apply (@sub_all_length (match_literal (a :: old))) with (n := length s).
  - apply match_literal_consumes. discriminate.
  - apply match_literal_shrinks. discriminate.
  - reflexivity.
Qed.

Lemma replace_prefix (old b : pystr) :
  old <> [] ->
  replace_with_empty (old ++ b) old = replace_with_empty b old.
Proof.
  intros Hold. destruct old as [|a old]; [congruence|].
  cbn [replace_with_empty].
  rewrite (@sub_all_match (match_literal (a :: old))) with (out := []) (rest := b).
  - reflexivity.
  - now apply match_literal_consumes.
  - unfold match_literal. now rewrite prefix_app, skipn_prefix.
Qed.

Lemma replace_skip (old : pystr) (c : char) (s : pystr) :
  prefix old (c :: s) = false ->
  replace_with_empty (c :: s) old = c :: replace_with_empty s old.
Proof.
  intros H. destruct old as [|a old]; [discriminate|].
  cbn [replace_with_empty]. apply sub_all_skip.
  unfold match_literal. now rewrite H.
Qed.

(** The text before an occurrence is copied and the occurrence is dropped,
    when [old] starts nowhere earlier. *)
Lemma replace_chunk (old : pystr) :
  old <> [] ->
  forall a b,
    occurs old (a ++ removelast old) = false ->
    replace_with_empty (a ++ old ++ b) old = a ++ replace_with_empty b old.
Proof.
  intros Hold. induction a as [|c a IH]; intros b H.
  - cbn [app]. now apply replace_prefix.
  - cbn [app occurs] in H. apply orb_false_iff in H as [Hp Hocc].
    cbn [app]. rewrite replace_skip.
    + f_equal. now apply IH.
    + rewrite (app_removelast_last 0%N Hold) at 2.
      rewrite <- app_assoc, app_assoc.
      change (c :: (a ++ removelast old) ++ [last old 0%N] ++ b)
        with ((c :: a ++ removelast old) ++ [last old 0%N] ++ b).
      rewrite prefix_long; [exact Hp|].
      cbn [length]. rewrite length_app.
      pose proof (app_removelast_last 0%N Hold) as E.
      apply (f_equal (@length _)) in E. rewrite length_app in E.
      cbn [length] in E. unfold pystr, char in *. lia.
Qed.

(** ** The pattern [(<s_[a-zA-Z0-9_]+>)\s] *)

Import Pattern.

Lemma span_split (p : char -> bool) (s : pystr) :
  forall a b, span p s = (a, b) -> s = a ++ b /\ forallb p a = true.
Proof.
  induction s as [|c s IH]; cbn [span]; intros a b H.
  - injection H as <- <-. auto.
  - destruct (p c) eqn:Hc.
    + destruct (span p s) as [a' b'] eqn:Hs. injection H as <- <-.
      destruct (IH _ _ eq_refl) as [-> Hall]. cbn [forallb app].
      now rewrite Hc, Hall.
    + injection H as <- <-. auto.
Qed.

Lemma span_run (p : char -> bool) (a : pystr) (c : char) (r : pystr) :
  forallb p a = true -> p c = false -> span p (a ++ c :: r) = (a, c :: r).
Proof.
  intros Ha Hc. induction a as [|x a IH]; cbn [span app forallb] in *.
  - now rewrite Hc.
  - apply andb_true_iff in Ha as [Hx Ha]. now rewrite Hx, IH.
Qed.

(** The pattern matches at the start of a text exactly when the text is an
    open tag followed by one whitespace character; group 1 is the tag. *)
Lemma match_pattern_inv (s g rest : pystr) :
  match_pattern s = Some (g, rest) ->
  exists name w,
    name <> [] /\ forallb is_word name = true /\ is_space w = true
    /\ s = open_tag name ++ w :: rest /\ g = open_tag name.
Proof.
  unfold match_pattern. destruct (prefix (str "<s_") s) eqn:Hp; [|discriminate].
  apply prefix_true in Hp. change (length (str "<s_")) with 3 in Hp.
  destruct (span is_word (skipn 3 s)) as [name s'] eqn:Hspan.
  apply span_split in Hspan as [Hs Hname].
  destruct name as [|c name]; [discriminate|].
  destruct s' as [|gt [|w rest']]; try discriminate.
  destruct (gt =? chr ">")%N eqn:Hgt; [|discriminate].
  destruct (is_space w) eqn:Hw; [|discriminate].
  cbn [andb]. intros H. injection H as <- <-.
  apply N.eqb_eq in Hgt. subst gt.
  exists (c :: name), w. repeat split; try assumption; try discriminate.
  rewrite Hp, Hs. unfold open_tag. rewrite <- !app_assoc. reflexivity.
Qed.

Lemma match_pattern_open (name : pystr) (w : char) (rest : pystr) :
  name <> [] -> forallb is_word name = true -> is_space w = true ->
  match_pattern (open_tag name ++ w :: rest) = Some (open_tag name, rest).
Proof.
  intros Hne Hname Hw. unfold match_pattern, open_tag.
  rewrite <- !app_assoc, prefix_app.
  change 3 with (length (str "<s_")). rewrite skipn_prefix.
  change (str ">" ++ w :: rest) with (chr ">" :: w :: rest).
  rewrite span_run by (assumption || reflexivity).
  destruct name as [|c name]; [congruence|].
  now rewrite N.eqb_refl, Hw.
Qed.

Lemma match_pattern_not_lt (c : char) (s : pystr) :
  c <> chr "<" -> match_pattern (c :: s) = None.
Proof.
  intros Hc. unfold match_pattern.
  assert (Hp : prefix (str "<s_") (c :: s) = false).
  { change (str "<s_") with (chr "<" :: str "s_"). cbn [prefix].
    destruct (N.eqb_spec (chr "<") c) as [E|E]; [congruence | reflexivity]. }
  now rewrite Hp.
Qed.

Lemma match_pattern_shrinks (s out rest : pystr) :
  match_pattern s = Some (out, rest) -> length out + length rest < length s.
Proof.
  intros H. apply match_pattern_inv in H as (name & w & _ & _ & _ & -> & ->).
  rewrite length_app. cbn [length]. lia.
Qed.

Lemma match_pattern_consumes (s out rest : pystr) :
  match_pattern s = Some (out, rest) -> length rest < length s.
Proof.
  intros H. apply match_pattern_shrinks in H. lia.
Qed.

Lemma is_space_not_lt (w : char) : is_space w = true -> w <> chr "<".
Proof.
  intros H ->. discriminate.
Qed.

Lemma is_word_not_lt (c : char) : is_word c = true -> c <> chr "<".
Proof.
  intros H ->. discriminate.
Qed.

Lemma sub_match (s g rest : pystr) :
  match_pattern s = Some (g, rest) -> sub s = g ++ sub rest.
Proof.
  apply sub_all_match. exact match_pattern_consumes.
Qed.

Lemma sub_skip (c : char) (s : pystr) :
  match_pattern (c :: s) = None -> sub (c :: s) = c :: sub s.
Proof.
  apply sub_all_skip.
Qed.

(** Characters other than [<] start no match and are copied. *)
Lemma sub_skip_run (a r : pystr) :
  Forall (fun c => c <> chr "<") a -> sub (a ++ r) = a ++ sub r.
Proof.
  induction 1 as [|c a Hc Ha IH]; cbn [app]; [reflexivity|].
  rewrite sub_skip by now apply match_pattern_not_lt.
  now rewrite IH.
Qed.

Lemma sub_fixed_iff (s : pystr) : sub s = s <-> search s = false.
Proof.
  apply sub_all_fixed_iff.
  - exact match_pattern_consumes.
  - exact match_pattern_shrinks.
Qed.

Lemma sub_length (s : pystr) : length (sub s) <= length s.
Proof.
  apply (@sub_all_length match_pattern) with (n := length s).
  - exact match_pattern_consumes.
  - exact match_pattern_shrinks.
  - reflexivity.
Qed.

(** One whitespace character after an open tag is dropped. *)
Lemma sub_open_tag (name : pystr) (w : char) (rest : pystr) :
  name <> [] -> forallb is_word name = true -> is_space w = true ->
  sub (open_tag name ++ w :: rest) = open_tag name ++ sub rest.
Proof.
  intros Hne Hname Hw. apply sub_match. now apply match_pattern_open.
Qed.

(** Whitespace after a close tag is copied. *)
Lemma sub_close_tag (name : pystr) (w : char) (rest : pystr) :
  forallb is_word name = true -> is_space w = true ->
  sub (close_tag name ++ w :: rest) = close_tag name ++ w :: sub rest.
Proof.
  intros Hname Hw. unfold close_tag.
  change (str "</s_") with (chr "<" :: str "/s_").
  cbn [app]. rewrite sub_skip by reflexivity. f_equal.
  replace ((str "/s_" ++ name ++ str ">") ++ w :: rest)
    with ((str "/s_" ++ name ++ str ">" ++ [w]) ++ rest)
    by (rewrite <- !app_assoc; reflexivity).
  rewrite sub_skip_run.
  - rewrite <- !app_assoc. reflexivity.
  - apply Forall_app. split; [repeat constructor; discriminate|].
    apply Forall_app. split.
    + apply Forall_forall. intros c Hc. apply is_word_not_lt.
      rewrite forallb_forall in Hname. now apply Hname.
    + repeat constructor; [discriminate | now apply is_space_not_lt].
Qed.

(** ** model.py: the decoded text *)

Lemma replace_length_lt (s old : pystr) :
  old <> [] -> occurs old s = true ->
  length (replace_with_empty s old) < length s.
Proof.
  intros Hold H. destruct old as [|a old]; [congruence|].
  cbn [replace_with_empty].
  apply (@sub_all_length (match_literal (a :: old))) with (n := length s).
  - now apply match_literal_consumes.
  - now apply match_literal_shrinks.
  - reflexivity.
  - now rewrite somewhere_literal.
Qed.

(** The texts [canonicalize] returns unchanged are those holding neither
    the padding token nor an open tag followed by whitespace. *)
Lemma canonicalize_fixed_iff (self : Model.t) (t : pystr) :
  pad_token (Model.tokenizer self) <> [] ->
  Model.canonicalize self t = t
  <-> occurs (pad_token (Model.tokenizer self)) t = false
      /\ search t = false.
Proof.
  intros Hpad. unfold Model.canonicalize. cbv zeta. split.
  - intros H.
    destruct (occurs (pad_token (Model.tokenizer self)) t) eqn:Hocc.
    + pose proof (replace_length_lt t Hpad Hocc) as Hlt.
      pose proof (sub_length
                    (replace_with_empty t (pad_token (Model.tokenizer self))))
        as Hle.
      rewrite H in Hle. unfold pystr, char in *. lia.
    + rewrite (replace_fixed _ _ Hocc) in H. split; [reflexivity|].
      now apply sub_fixed_iff.
  - intros [Hocc Hsearch]. rewrite (replace_fixed _ _ Hocc).
    now apply sub_fixed_iff.
Qed.

(** C6, counterexample.  After an open tag followed by two spaces the first
    pass leaves one space and the second pass removes it; and removing the
    padding token can join the text around it into a new padding token,
    which only the second pass removes. *)
Lemma canonicalize_not_idempotent :
  let self := Model.init Vocab.tokenizer in
  Model.canonicalize self (str "<s_company>  ACME") = str "<s_company> ACME"
  /\ Model.canonicalize self (str "<s_company> ACME") = str "<s_company>ACME"
  /\ Model.canonicalize self (Model.canonicalize self (str "<s_company>  ACME"))
     <> Model.canonicalize self (str "<s_company>  ACME")
  /\ Model.canonicalize self (str "<p<pad>ad>ACME") = str "<pad>ACME"
  /\ Model.canonicalize self (Model.canonicalize self (str "<p<pad>ad>ACME"))
     <> Model.canonicalize self (str "<p<pad>ad>ACME").
Proof.
  cbv zeta.
  split; [vm_compute; reflexivity|]. split; [vm_compute; reflexivity|].
  split; [vm_compute; discriminate|].
  split; [vm_compute; reflexivity|]. vm_compute; discriminate.
Qed.

(** C6, amended.  With a non-empty padding token, applying [canonicalize]
    twice gives the same text as applying it once exactly when the text
    obtained the first time holds neither the padding token nor an open tag
    followed by a whitespace character. *)
Theorem canonicalize_twice (self : Model.t) (s : pystr) :
  pad_token (Model.tokenizer self) <> [] ->
  Model.canonicalize self (Model.canonicalize self s)
  = Model.canonicalize self s
  <-> occurs (pad_token (Model.tokenizer self)) (Model.canonicalize self s)
      = false
      /\ search (Model.canonicalize self s) = false.
Proof.
  intros Hpad. now apply canonicalize_fixed_iff.
Qed.

(** The decoded text of the third scenario. *)
Lemma canonicalize_twice_witness :
  let self := Model.init Vocab.tokenizer in
  let s := str "<s_company> ACME </s_company> <pad><pad>" in
  pad_token (Model.tokenizer self) <> []
  /\ Model.canonicalize self s = str "<s_company>ACME </s_company> "
  /\ occurs (pad_token (Model.tokenizer self)) (Model.canonicalize self s)
     = false
  /\ search (Model.canonicalize self s) = false
  /\ Model.canonicalize self (Model.canonicalize self s)
     = Model.canonicalize self s.
Proof.
  cbv zeta.
  assert (Hpad : pad_token (Model.tokenizer (Model.init Vocab.tokenizer)) <> [])
    by discriminate.
  split; [exact Hpad|]. split; [vm_compute; reflexivity|].
  assert (Hocc :
    occurs (pad_token (Model.tokenizer (Model.init Vocab.tokenizer)))
           (Model.canonicalize (Model.init Vocab.tokenizer)
              (str "<s_company> ACME </s_company> <pad><pad>")) = false)
    by (vm_compute; reflexivity).
  assert (Hsearch :
    search (Model.canonicalize (Model.init Vocab.tokenizer)
              (str "<s_company> ACME </s_company> <pad><pad>")) = false)
    by (vm_compute; reflexivity).
  split; [exact Hocc|]. split; [exact Hsearch|].
  apply (proj2 (canonicalize_twice (Model.init Vocab.tokenizer)
                  (str "<s_company> ACME </s_company> <pad><pad>") Hpad)).
  split; assumption.
Defined.

(** C7, counterexample.  Whitespace after a close tag is kept, and of two
    spaces after an open tag one is kept. *)
Lemma canonicalize_keeps_whitespace :
  let self := Model.init Vocab.tokenizer in
  Model.canonicalize self (str "<s_company>ACME</s_company> <pad>")
  = str "<s_company>ACME</s_company> "
  /\ Model.canonicalize self (str "<s_company>  ACME")
     = str "<s_company> ACME".
Proof.
  cbv zeta. split; vm_compute; reflexivity.
Qed.

(** A text that starts with an open tag and one whitespace character. *)
Lemma match_pattern_none (c : char) (s : pystr) :
  (forall name w rest,
      name <> [] -> forallb is_word name = true -> is_space w = true ->
      c :: s <> open_tag name ++ w :: rest) ->
  match_pattern (c :: s) = None.
Proof.
  intros Hno. destruct (match_pattern (c :: s)) as [[g rest]|] eqn:Hm;
    [|reflexivity].
  apply match_pattern_inv in Hm as (name & w & Hne & Hname & Hw & Hs & _).
  exfalso. exact (Hno name w rest Hne Hname Hw Hs).
Qed.

Lemma prefix_none (pad : pystr) (c : char) (s : pystr) :
  (forall t, c :: s <> pad ++ t) -> prefix pad (c :: s) = false.
Proof.
  intros Hno. destruct (prefix pad (c :: s)) eqn:Hp; [|reflexivity].
  apply prefix_true in Hp. exfalso. exact (Hno _ Hp).
Qed.

(** The three cases (empty text, open tag and whitespace, anything else)
    leave no choice: a function that treats them as [sub] does is [sub]. *)
Lemma sub_unique (f : pystr -> pystr) :
  f [] = [] ->
  (forall name w rest,
      name <> [] -> forallb is_word name = true -> is_space w = true ->
      f (open_tag name ++ w :: rest) = open_tag name ++ f rest) ->
  (forall c s,
      (forall name w rest,
          name <> [] -> forallb is_word name = true -> is_space w = true ->
          c :: s <> open_tag name ++ w :: rest) ->
      f (c :: s) = c :: f s) ->
  forall s, f s = sub s.
Proof.
  intros Hnil Hopen Hcopy.
  assert (H : forall n s, length s <= n -> f s = sub s).
  { induction n as [|n IH]; intros s Hn.
    - destruct s; [|cbn [length] in Hn; lia]. now rewrite Hnil.
    - destruct (match_pattern s) as [[g rest]|] eqn:Hm.
      + rewrite (sub_match _ Hm).
        pose proof (match_pattern_consumes _ Hm) as Hlt.
        apply match_pattern_inv in Hm
          as (name & w & Hne & Hname & Hw & -> & ->).
        rewrite Hopen by assumption. f_equal. apply IH. lia.
      + destruct s as [|c s]; [now rewrite Hnil|].
        rewrite (sub_skip _ _ Hm), Hcopy.
        * f_equal. apply IH. cbn [length] in Hn. lia.
        * intros name w rest Hne Hname Hw E.
          rewrite E, match_pattern_open in Hm by assumption. discriminate. }
  intros s. now apply (H (length s)).
Qed.

Lemma replace_unique (pad : pystr) (g : pystr -> pystr) :
  pad <> [] ->
  g [] = [] ->
  (forall b, g (pad ++ b) = g b) ->
  (forall c s, (forall t, c :: s <> pad ++ t) -> g (c :: s) = c :: g s) ->
  forall s, g s = replace_with_empty s pad.
Proof.
  intros Hpad Hnil Hdrop Hcopy.
  assert (H : forall n s, length s <= n -> g s = replace_with_empty s pad).
  { induction n as [|n IH]; intros s Hn.
    - destruct s; [|cbn [length] in Hn; lia]. rewrite Hnil.
      symmetry. apply replace_fixed. destruct pad; [congruence | reflexivity].
    - destruct (prefix pad s) eqn:Hp.
      + apply prefix_true in Hp. rewrite Hp, Hdrop, replace_prefix by exact Hpad.
        apply IH. apply (f_equal (@length _)) in Hp.
        rewrite length_app in Hp. destruct pad; [congruence|].
        cbn [length] in *. unfold pystr, char in *. lia.
      + destruct s as [|c s].
        * rewrite Hnil. symmetry. apply replace_fixed.
          destruct pad; [congruence | reflexivity].
        * rewrite (replace_skip _ _ _ Hp), Hcopy.
          -- f_equal. apply IH. cbn [length] in Hn. lia.
          -- intros t E. rewrite E, prefix_app in Hp. discriminate. }
  intros s. now apply (H (length s)).
Qed.

(** C7, amended.  [canonicalize] first replaces the padding token by the
    empty string, scanning from the left: a text without the token is
    unchanged, and an occurrence with no earlier start of the token before
    it is dropped.  It then drops exactly one whitespace character after
    each open tag [<s_name>]: a second whitespace character stays, and
    whitespace after a close tag [</s_name>] stays.  Both passes are
    described for every text: at each position the token (in the second
    pass the open tag with its whitespace character) is recognised or the
    character is copied, and no other function behaves so. *)
Theorem canonicalize_spec (self : Model.t) :
  let pad := pad_token (Model.tokenizer self) in
  (forall s,
      Model.canonicalize self s = sub (replace_with_empty s pad))
  /\ (forall s, occurs pad s = false -> replace_with_empty s pad = s)
  /\ (forall a b,
         pad <> [] -> occurs pad (a ++ removelast pad) = false ->
         replace_with_empty (a ++ pad ++ b) pad
         = a ++ replace_with_empty b pad)
  /\ (forall name w rest,
         name <> [] -> forallb is_word name = true -> is_space w = true ->
         sub (open_tag name ++ w :: rest) = open_tag name ++ sub rest
         /\ sub (close_tag name ++ w :: rest)
            = close_tag name ++ w :: sub rest
         /\ forall w' rest',
             is_space w' = true -> rest = w' :: rest' ->
             sub (open_tag name ++ w :: rest)
             = open_tag name ++ w' :: sub rest')
  /\ (replace_with_empty [] pad = []
      /\ (pad = [] -> forall s, replace_with_empty s pad = s)
      /\ (forall b,
             pad <> [] ->
             replace_with_empty (pad ++ b) pad = replace_with_empty b pad)
      /\ (forall c s,
             (forall t, c :: s <> pad ++ t) ->
             replace_with_empty (c :: s) pad
             = c :: replace_with_empty s pad)
      /\ (forall g : pystr -> pystr,
             pad <> [] ->
             g [] = [] ->
             (forall b, g (pad ++ b) = g b) ->
             (forall c s, (forall t, c :: s <> pad ++ t) ->
                          g (c :: s) = c :: g s) ->
             forall s, g s = replace_with_empty s pad))
  /\ (sub [] = []
      /\ (forall c s,
             (forall name w rest,
                 name <> [] -> forallb is_word name = true ->
                 is_space w = true ->
                 c :: s <> open_tag name ++ w :: rest) ->
             sub (c :: s) = c :: sub s)
      /\ (forall f : pystr -> pystr,
             f [] = [] ->
             (forall name w rest,
                 name <> [] -> forallb is_word name = true ->
                 is_space w = true ->
                 f (open_tag name ++ w :: rest) = open_tag name ++ f rest) ->
             (forall c s,
                 (forall name w rest,
                     name <> [] -> forallb is_word name = true ->
                     is_space w = true ->
                     c :: s <> open_tag name ++ w :: rest) ->
                 f (c :: s) = c :: f s) ->
             forall s, f s = sub s)).
Proof.
  cbv zeta. split; [reflexivity|]. split; [intros s; apply replace_fixed|].
  split; [intros a b Hpad; now apply replace_chunk|].
  split.
  { intros name w rest Hne Hname Hw. split; [now apply sub_open_tag|].
    split; [now apply sub_close_tag|].
    intros w' rest' Hw' ->. rewrite sub_open_tag by assumption.
    rewrite sub_skip; [reflexivity|].
    apply match_pattern_not_lt. now apply is_space_not_lt. }
  split.
  { split.
    { destruct (pad_token (Model.tokenizer self)); reflexivity. }
    split; [intros -> s; reflexivity|].
    split; [intros b Hpad; now apply replace_prefix|].
    split; [intros c s Hno; apply replace_skip; now apply prefix_none|].
    intros g Hpad. now apply replace_unique. }
  split; [reflexivity|].
  split; [intros c s Hno; apply sub_skip; now apply match_pattern_none|].
  intros f. apply sub_unique.
Qed.

(** The tag [<s_company>] followed by two spaces; and a text that starts
    with [<s>], whose characters are copied up to the open tag. *)
Lemma canonicalize_spec_witness :
  let self := Model.init Vocab.tokenizer in
  Model.canonicalize self (str "<s_company>  ACME </s_company> <pad><pad>")
  = sub (replace_with_empty
           (str "<s_company>  ACME </s_company> <pad><pad>") (str "<pad>"))
  /\ replace_with_empty (str "ACME") (str "<pad>") = str "ACME"
  /\ replace_with_empty (str "AC" ++ str "<pad>" ++ str "ME") (str "<pad>")
     = str "AC" ++ replace_with_empty (str "ME") (str "<pad>")
  /\ sub (open_tag (str "company") ++ chr " " :: str " ACME")
     = open_tag (str "company") ++ sub (str " ACME")
  /\ sub (close_tag (str "company") ++ chr " " :: str " ACME")
     = close_tag (str "company") ++ chr " " :: sub (str " ACME")
  /\ sub (open_tag (str "company") ++ chr " " :: str " ACME")
     = open_tag (str "company") ++ chr " " :: sub (str "ACME")
  /\ sub (str "<s>" ++ open_tag (str "company") ++ chr " " :: str "ACME")
     = str "<s>" ++ open_tag (str "company") ++ sub (str "ACME")
  /\ replace_with_empty (chr "A" :: str "<pad>" ++ str "CME") (str "<pad>")
     = chr "A" :: replace_with_empty (str "CME") (str "<pad>").
Proof.
  cbv zeta.
  destruct (canonicalize_spec (Model.init Vocab.tokenizer))
    as (Hdef & Hfix & Hchunk & Htag & Hreplace & Hsub).
  destruct Hreplace as (_ & _ & Hdrop & Hkeep & _).
  destruct Hsub as (_ & Hcopy & _).
  split; [apply Hdef|]. split; [apply Hfix; vm_compute; reflexivity|].
  split; [apply Hchunk; [discriminate | vm_compute; reflexivity]|].
  destruct (Htag (str "company") (chr " ") (str " ACME"))
    as (Hopen & Hclose & Htwo);
    [discriminate | vm_compute; reflexivity | vm_compute; reflexivity |].
  split; [exact Hopen|]. split; [exact Hclose|].
  split; [apply (Htwo (chr " ") (str "ACME")); reflexivity|].
  split.
  - destruct (Htag (str "company") (chr " ") (str "ACME"))
      as (Hopen' & _ & _);
      [discriminate | vm_compute; reflexivity | vm_compute; reflexivity |].
    change (str "<s>") with [chr "<"; chr "s"; chr ">"]. cbn [app].
    rewrite Hcopy.
    + rewrite Hcopy.
      * rewrite Hcopy.
        -- now rewrite Hopen'.
        -- intros name w rest _ _ _ E. unfold open_tag in E.
           vm_compute in E. discriminate E.
      * intros name w rest _ _ _ E. unfold open_tag in E.
        vm_compute in E. discriminate E.
    + intros name w rest _ _ _ E. unfold open_tag in E.
      vm_compute in E. discriminate E.
  - rewrite Hkeep.
    + apply (f_equal (cons (chr "A"))). apply (Hdrop (str "CME")).
      discriminate.
    + intros t E. vm_compute in E. discriminate E.
Defined.

(** * Further properties *)

(** ** inference_processor.py: the last tag *)

Lemma find_app {A : Type} (f : A -> bool) (l1 l2 : list A) :
  find f (l1 ++ l2)
  = match find f l1 with
    | Some x => Some x
    | None => find f l2
    end.
Proof.
  induction l1 as [|x l1 IH]; cbn [find app]; [reflexivity|].
  destruct (f x); auto.
Qed.

Lemma find_none_all {A : Type} (f : A -> bool) (l : list A) :
  (forall x, In x l -> f x = false) -> find f l = None.
Proof.
  induction l as [|x l IH]; cbn [find]; intros H; [reflexivity|].
  rewrite (H x) by (left; reflexivity). apply IH. intros y Hy.
  apply H. now right.
Qed.

Lemma is_special_In (self : InferenceLogitsProcessor.t) (id : nat) :
  InferenceLogitsProcessor.is_special self id = true
  <-> In id (InferenceLogitsProcessor.special_token_ids self).
Proof.
  unfold InferenceLogitsProcessor.is_special. rewrite existsb_exists. split.
  - intros (x & Hx & E). apply Nat.eqb_eq in E. now subst.
  - intros H. exists id. split; [assumption | apply Nat.eqb_refl].
Qed.

Lemma is_special_not_In (self : InferenceLogitsProcessor.t) (id : nat) :
  InferenceLogitsProcessor.is_special self id = false
  <-> ~ In id (InferenceLogitsProcessor.special_token_ids self).
Proof.
  rewrite <- is_special_In.
  destruct (InferenceLogitsProcessor.is_special self id); split; congruence.
Qed.

Lemma last_tag_raise
      (self : InferenceLogitsProcessor.t) (ids : list nat) (e : exn) :
  InferenceLogitsProcessor._last_tag self ids = Raise e ->
  e = StopIteration
  /\ Forall (fun id =>
               ~ In id (InferenceLogitsProcessor.special_token_ids self)) ids.
Proof.
  unfold InferenceLogitsProcessor._last_tag.
  destruct (find (InferenceLogitsProcessor.is_special self) (rev ids))
    as [id|] eqn:Hfind; [discriminate|].
  intros H. injection H as <-. split; [reflexivity|].
  apply Forall_forall. intros id Hid. apply is_special_not_In.
  apply (find_none _ _ Hfind). now apply in_rev in Hid.
Qed.

(** X1. [_last_tag] raises [StopIteration] exactly when no id of the row is
    the id of a tag-list entry. *)
Theorem last_tag_stop_iteration
        (self : InferenceLogitsProcessor.t) (ids : list nat) :
  InferenceLogitsProcessor._last_tag self ids = Raise StopIteration
  <-> Forall (fun id =>
                ~ In id (InferenceLogitsProcessor.special_token_ids self)) ids.
Proof.
  unfold InferenceLogitsProcessor._last_tag.
  destruct (find (InferenceLogitsProcessor.is_special self) (rev ids))
    as [id|] eqn:Hfind; split.
  - discriminate.
  - intros Hall. apply find_some in Hfind as [Hin Hsp].
    apply in_rev in Hin. rewrite Forall_forall in Hall.
    apply is_special_In in Hsp. now apply Hall in Hin.
  - intros _. apply Forall_forall. intros id Hid.
    apply is_special_not_In.
    apply (find_none _ _ Hfind). now apply in_rev in Hid.
  - reflexivity.
Qed.

(** X2. Ids that are not tag-list ids do not change the last tag when they
    are appended, and an appended tag-list id becomes the last tag,
    whatever precedes it. *)
Theorem last_tag_suffix
        (self : InferenceLogitsProcessor.t) (ids tail : list nat) :
  Forall (fun id =>
            ~ In id (InferenceLogitsProcessor.special_token_ids self)) tail ->
  InferenceLogitsProcessor._last_tag self (ids ++ tail)
  = InferenceLogitsProcessor._last_tag self ids
  /\ forall id,
      In id (InferenceLogitsProcessor.special_token_ids self) ->
      InferenceLogitsProcessor._last_tag self (ids ++ id :: tail)
      = Ok (convert_ids_to_tokens
              (InferenceLogitsProcessor.tokenizer self) id).
Proof.
  intros Htail.
  assert (Hnone : find (InferenceLogitsProcessor.is_special self) (rev tail)
                  = None).
  { apply find_none_all. intros x Hx. apply is_special_not_In.
    rewrite Forall_forall in Htail. apply Htail. now apply in_rev. }
  unfold InferenceLogitsProcessor._last_tag. split.
  - now rewrite rev_app_distr, find_app, Hnone.
  - intros id Hid. rewrite rev_app_distr. cbn [rev].
    rewrite <- app_assoc, find_app, Hnone. cbn [app find].
    apply is_special_In in Hid. now rewrite Hid.
Qed.

(** After [<s_company>] the text piece 4 keeps the last tag, and
    [</s_company>] (id 9) replaces it. *)
Lemma last_tag_suffix_witness :
  let self := InferenceLogitsProcessor.init Vocab.tokenizer in
  InferenceLogitsProcessor._last_tag self ([0; 8] ++ [4; 5])
  = InferenceLogitsProcessor._last_tag self [0; 8]
  /\ InferenceLogitsProcessor._last_tag self ([0; 8] ++ 9 :: [4; 5])
     = Ok (str "</s_company>").
Proof.
  cbv zeta.
  assert (Htail : Forall
    (fun id => ~ In id (InferenceLogitsProcessor.special_token_ids
                          (InferenceLogitsProcessor.init Vocab.tokenizer)))
    [4; 5]).
  { repeat constructor; vm_compute; intuition discriminate. }
  destruct (last_tag_suffix (InferenceLogitsProcessor.init Vocab.tokenizer)
                            [0; 8] Htail) as [Hkeep Hnew].
  split; [exact Hkeep|].
  apply (Hnew 9). vm_compute. tauto.
Defined.

(** ** inference_processor.py: outcomes of the mask *)

Lemma dict_get_raise {V : Type} (d : list (pystr * V)) (k : pystr) (e : exn) :
  dict_get d k = Raise e -> e = KeyError /\ ~ In k (map fst d).
Proof.
  induction d as [|[k' v] d IH]; cbn [dict_get map fst In]; intros H.
  - injection H as <-. tauto.
  - destruct (eqb k k') eqn:E; [discriminate|].
    apply eqb_neq in E. destruct (IH H) as [-> Hk]. split; [reflexivity|].
    intros [Heq|Hin]; [congruence | contradiction].
Qed.

Lemma index_fill_raise {A : Type} (idx : list nat) (v : A) :
  forall (row : list A) (e : exn),
    index_fill row idx v = Raise e ->
    e = IndexError /\ exists i, In i idx /\ length row <= i.
Proof.
  induction idx as [|i idx IH]; cbn [index_fill]; intros row e H.
  - discriminate.
  - destruct (i <? length row) eqn:Hi.
    + destruct (IH _ _ H) as (-> & j & Hj & Hlen).
      rewrite set_nth_length in Hlen. split; [reflexivity|].
      exists j. split; [now right | assumption].
    + injection H as <-. apply Nat.ltb_ge in Hi. split; [reflexivity|].
      exists i. split; [now left | assumption].
Qed.

(** X3. What a row of [__call__] raises: [StopIteration] when the row holds
    no tag-list id, [KeyError] when its last tag is not a key of the table,
    [IndexError] when a tag-list id is past the end of the scores; and when
    the last tag has candidates and every forbidden id is within the
    scores, the row is returned masked: the same length, negative infinity
    at the forbidden ids, every other score as it was. *)
Theorem call_row_outcome
        (self : InferenceLogitsProcessor.t) (ids : list nat)
        (row : list score) :
  (forall e,
      InferenceLogitsProcessor.call_row self ids row = Raise e ->
      (e = StopIteration
       /\ Forall (fun id =>
                    ~ In id (InferenceLogitsProcessor.special_token_ids self))
                 ids)
      \/ (e = KeyError
          /\ exists last_tag,
              InferenceLogitsProcessor._last_tag self ids = Ok last_tag
              /\ ~ In last_tag
                      (map fst InferenceLogitsProcessor.transitions))
      \/ (e = IndexError
          /\ exists id,
              In id (InferenceLogitsProcessor.special_token_ids self)
              /\ length row <= id))
  /\ (forall last_tag candidates,
         InferenceLogitsProcessor._last_tag self ids = Ok last_tag ->
         InferenceLogitsProcessor._candidate_tags last_tag = Ok candidates ->
         (forall id,
             In id (InferenceLogitsProcessor.forbidden self candidates) ->
             id < length row) ->
         exists row',
           InferenceLogitsProcessor.call_row self ids row = Ok row'
           /\ length row' = length row
           /\ (forall j,
                  In j (InferenceLogitsProcessor.forbidden self candidates) ->
                  nth_error row' j = Some neg_inf)
           /\ (forall j,
                  ~ In j (InferenceLogitsProcessor.forbidden self candidates) ->
                  nth_error row' j = nth_error row j)).
Proof.
  unfold InferenceLogitsProcessor.call_row. split.
  - intros e H.
    destruct (InferenceLogitsProcessor._last_tag self ids)
      as [last_tag|e0] eqn:Hlast; cbn [bind] in H.
    + destruct (InferenceLogitsProcessor._candidate_tags last_tag)
        as [candidates|e1] eqn:Hcand; cbn [bind] in H.
      * right. right. apply index_fill_raise in H as (-> & id & Hid & Hlen).
        split; [reflexivity|]. exists id. split; [|assumption].
        now apply forbidden_In in Hid.
      * right. left. injection H as <-.
        apply dict_get_raise in Hcand as [-> Hk]. split; [reflexivity|].
        now exists last_tag.
    + left. apply last_tag_raise in Hlast as [-> Hall].
      injection H as <-. split; [reflexivity | assumption].
  - intros last_tag candidates -> Hcand Hlt. cbn [bind]. rewrite Hcand.
    cbn [bind].
    destruct (@index_fill_total score
                (InferenceLogitsProcessor.forbidden self candidates)
                neg_inf row Hlt) as [row' Hfill].
    exists row'. split; [exact Hfill|].
    destruct (index_fill_spec _ _ _ Hfill) as (Hlen & Hin & Hout).
    split; [exact Hlen|]. split; [|exact Hout].
    intros j Hj. now apply Hin.
Qed.

(** A row of ten scores is too short for the tag-list ids; sixteen are
    enough, and then [<s_company>] (id 8) is masked while [<s_date>]
    (id 10) and the text piece 4 keep their scores. *)
Lemma call_row_outcome_witness :
  let self := InferenceLogitsProcessor.init Vocab.tokenizer in
  InferenceLogitsProcessor.call_row self [0; 8; 4; 9] (repeat Vocab.zero 10)
  = Raise IndexError
  /\ (exists id,
         In id (InferenceLogitsProcessor.special_token_ids self)
         /\ length (repeat Vocab.zero 10) <= id)
  /\ exists row',
      InferenceLogitsProcessor.call_row self [0; 8; 4; 9]
                                        (repeat Vocab.zero 16) = Ok row'
      /\ length row' = 16
      /\ nth_error row' 8 = Some neg_inf
      /\ nth_error row' 10 = Some Vocab.zero
      /\ nth_error row' 4 = Some Vocab.zero.
Proof.
  cbv zeta. split; [reflexivity|]. split.
  - destruct (proj1 (call_row_outcome
                       (InferenceLogitsProcessor.init Vocab.tokenizer)
                       [0; 8; 4; 9] (repeat Vocab.zero 10))
                    IndexError eq_refl)
      as [[H _]|[[H _]|[_ H]]]; [discriminate | discriminate | exact H].
  - destruct (proj2 (call_row_outcome
                       (InferenceLogitsProcessor.init Vocab.tokenizer)
                       [0; 8; 4; 9] (repeat Vocab.zero 16))
                    (str "</s_company>") [str "<s_date>"] eq_refl eq_refl)
      as (row' & Hcall & Hlen & Hin & Hout).
    + intros id Hid. vm_compute in Hid.
      repeat (destruct Hid as [<-|Hid]; [vm_compute; lia|]). contradiction.
    + exists row'. split; [exact Hcall|]. split; [exact Hlen|].
      split; [apply Hin; vm_compute; tauto|].
      split; (rewrite Hout; [reflexivity|]); vm_compute;
        intuition discriminate.
Defined.

Lemma index_fill_again {A : Type} (idx : list nat) (v : A)
      (row row' : list A) :
  index_fill row idx v = Ok row' -> index_fill row' idx v = Ok row'.
Proof.
  intros H. destruct (index_fill_spec _ _ _ H) as (Hlen & Hin & Hout).
  destruct (@index_fill_total A idx v row') as [row'' H''].
  { intros j Hj. rewrite Hlen. now apply Hin. }
  rewrite H''. f_equal.
  destruct (index_fill_spec _ _ _ H'') as (_ & Hin'' & Hout'').
  apply nth_error_ext. intros j.
  destruct (in_dec Nat.eq_dec j idx) as [Hj|Hj].
  - destruct (Hin _ Hj) as [_ ->]. now destruct (Hin'' _ Hj) as [_ ->].
  - now apply Hout''.
Qed.

(** X4. The mask is idempotent: applied to the scores it returned, with the
    same ids, [__call__] returns them unchanged. *)
Theorem call_idempotent (self : InferenceLogitsProcessor.t)
        (input_ids : list (list nat)) (scores out : list (list score)) :
  InferenceLogitsProcessor.call self input_ids scores = Ok out ->
  InferenceLogitsProcessor.call self input_ids out = Ok out.
Proof.
  revert scores out.
  induction input_ids as [|ids input_ids IH]; intros scores out H.
  - reflexivity.
  - cbn [InferenceLogitsProcessor.call] in H.
    destruct scores as [|row scores].
    + destruct (InferenceLogitsProcessor._last_tag self ids) as [t|e];
        [|discriminate].
      cbn [bind] in H.
      destruct (InferenceLogitsProcessor._candidate_tags t); discriminate.
    + destruct (InferenceLogitsProcessor.call_row self ids row)
        as [row'|e] eqn:Hrow; [|discriminate].
      cbn [bind] in H.
      destruct (InferenceLogitsProcessor.call self input_ids scores)
        as [rest|e] eqn:Hrest; [|discriminate].
      cbn [bind] in H. injection H as <-.
      cbn [InferenceLogitsProcessor.call].
      assert (Hrow' : InferenceLogitsProcessor.call_row self ids row'
                      = Ok row').
      { unfold InferenceLogitsProcessor.call_row in *.
        destruct (InferenceLogitsProcessor._last_tag self ids) as [t|e];
          [|discriminate].
        cbn [bind] in *.
        destruct (InferenceLogitsProcessor._candidate_tags t) as [c|e];
          [|discriminate].
        cbn [bind] in *. now apply index_fill_again with row. }
      rewrite Hrow'. cbn [bind]. rewrite (IH _ _ Hrest). reflexivity.
Qed.

Lemma call_idempotent_witness :
  let self := InferenceLogitsProcessor.init Vocab.tokenizer in
  exists out,
    InferenceLogitsProcessor.call self [[0; 8; 4; 9]] [repeat Vocab.zero 16]
    = Ok out
    /\ InferenceLogitsProcessor.call self [[0; 8; 4; 9]] out = Ok out.
Proof.
  cbv zeta. eexists. split; [vm_compute; reflexivity|].
  apply (call_idempotent (InferenceLogitsProcessor.init Vocab.tokenizer)
                         [[0; 8; 4; 9]] [repeat Vocab.zero 16]).
  vm_compute. reflexivity.
Defined.

(** X5. When [__call__] returns, the scores have at least as many rows as
    the ids, every row keeps its length, and the rows past the last row of
    ids are returned as they were. *)
Theorem call_shape (self : InferenceLogitsProcessor.t)
        (input_ids : list (list nat)) (scores out : list (list score)) :
  InferenceLogitsProcessor.call self input_ids scores = Ok out ->
  length input_ids <= length scores
  /\ map (@length score) out = map (@length score) scores
  /\ skipn (length input_ids) out = skipn (length input_ids) scores.
Proof.
  revert scores out.
  induction input_ids as [|ids input_ids IH]; intros scores out H.
  - injection H as <-. cbn. repeat split. lia.
  - cbn [InferenceLogitsProcessor.call] in H.
    destruct scores as [|row scores].
    + destruct (InferenceLogitsProcessor._last_tag self ids) as [t|e];
        [|discriminate].
      cbn [bind] in H.
      destruct (InferenceLogitsProcessor._candidate_tags t); discriminate.
    + destruct (InferenceLogitsProcessor.call_row self ids row)
        as [row'|e] eqn:Hrow; [|discriminate].
      cbn [bind] in H.
      destruct (InferenceLogitsProcessor.call self input_ids scores)
        as [rest|e] eqn:Hrest; [|discriminate].
      cbn [bind] in H. injection H as <-.
      destruct (IH _ _ Hrest) as (Hle & Hmap & Hskip).
      destruct (call_row_spec _ _ _ Hrow) as (_ & _ & _ & _ & Hlen & _).
      cbn [length map skipn]. repeat split.
      * lia.
      * now rewrite Hlen, Hmap.
      * exact Hskip.
Qed.

Lemma call_shape_witness :
  let self := InferenceLogitsProcessor.init Vocab.tokenizer in
  exists out,
    InferenceLogitsProcessor.call
      self [[0; 8; 4; 9]] [repeat Vocab.zero 16; [Vocab.minus_one]] = Ok out
    /\ map (@length score) out = [16; 1]
    /\ skipn 1 out = [[Vocab.minus_one]].
Proof.
  cbv zeta. eexists. split; [vm_compute; reflexivity|].
  apply (call_shape (InferenceLogitsProcessor.init Vocab.tokenizer)
                    [[0; 8; 4; 9]]
                    [repeat Vocab.zero 16; [Vocab.minus_one]]).
  vm_compute. reflexivity.
Defined.

Lemma last_tag_of_suffix
      (self : InferenceLogitsProcessor.t) (ids tail : list nat) (id : nat) :
  In id (InferenceLogitsProcessor.special_token_ids self) ->
  Forall (fun x =>
            ~ In x (InferenceLogitsProcessor.special_token_ids self)) tail ->
  InferenceLogitsProcessor._last_tag self (ids ++ id :: tail)
  = Ok (convert_ids_to_tokens (InferenceLogitsProcessor.tokenizer self) id).
Proof.
  intros Hid Htail. unfold InferenceLogitsProcessor._last_tag.
  rewrite rev_app_distr. cbn [rev]. rewrite <- app_assoc, find_app.
  rewrite find_none_all.
  - cbn [app find]. apply is_special_In in Hid. now rewrite Hid.
  - intros x Hx. apply is_special_not_In.
    rewrite Forall_forall in Htail. apply Htail. now apply in_rev.
Qed.

(** X6. Once the merged tag-list entry [</s_total></s>] is the last tag-list
    id of the first row, [__call__] raises [KeyError], for any scores: the
    entry is not a key of the table. *)
Theorem call_after_merged_entry (tokenizer : Tokenizer)
        (ids tail : list nat) (input_ids' : list (list nat))
        (scores : list (list score)) :
  let self := InferenceLogitsProcessor.init tokenizer in
  let merged := str "</s_total></s>" in
  convert_ids_to_tokens tokenizer (convert_tokens_to_ids tokenizer merged)
  = merged ->
  Forall (fun x =>
            ~ In x (InferenceLogitsProcessor.special_token_ids self)) tail ->
  InferenceLogitsProcessor.call
    self ((ids ++ convert_tokens_to_ids tokenizer merged :: tail)
            :: input_ids') scores
  = Raise KeyError.
Proof.
  cbv zeta. intros Hround Htail.
  assert (Hlast :
    InferenceLogitsProcessor._last_tag
      (InferenceLogitsProcessor.init tokenizer)
      (ids ++ convert_tokens_to_ids tokenizer (str "</s_total></s>") :: tail)
    = Ok (str "</s_total></s>")).
  { rewrite last_tag_of_suffix; [|apply in_map, mem_In; reflexivity|exact Htail].
    cbn [InferenceLogitsProcessor.init InferenceLogitsProcessor.tokenizer].
    now rewrite Hround. }
  cbn [InferenceLogitsProcessor.call].
  unfold InferenceLogitsProcessor.call_row. rewrite Hlast. cbn [bind].
  destruct scores; reflexivity.
Qed.

(** The merged entry has the id 15; the text piece 4 follows it. *)
Lemma call_after_merged_entry_witness :
  InferenceLogitsProcessor.call
    (InferenceLogitsProcessor.init Vocab.tokenizer)
    [[0; 8; 9; 10; 11; 12; 13; 14] ++ 15 :: [4]] [repeat Vocab.zero 16]
  = Raise KeyError.
Proof.
  apply (@call_after_merged_entry Vocab.tokenizer
           [0; 8; 9; 10; 11; 12; 13; 14] [4] []
           [repeat Vocab.zero 16]).
  - reflexivity.
  - repeat constructor. vm_compute. intuition discriminate.
Defined.

(** X7. With a tokenizer that maps the id of every tag-list entry back to
    the entry, a returned row holds, at the id of each entry, the score it
    had when the entry is a candidate of the last tag and negative infinity
    otherwise; after [<s_total>] every entry is at negative infinity. *)
Theorem call_row_tag_scores (tokenizer : Tokenizer)
        (ids : list nat) (row row' : list score) :
  let self := InferenceLogitsProcessor.init tokenizer in
  (forall tag, In tag Receipt.get_xml_tags ->
               convert_ids_to_tokens tokenizer
                 (convert_tokens_to_ids tokenizer tag) = tag) ->
  InferenceLogitsProcessor.call_row self ids row = Ok row' ->
  exists last_tag candidates,
    InferenceLogitsProcessor._last_tag self ids = Ok last_tag
    /\ InferenceLogitsProcessor._candidate_tags last_tag = Ok candidates
    /\ (forall tag,
           In tag Receipt.get_xml_tags ->
           nth_error row' (convert_tokens_to_ids tokenizer tag)
           = if mem tag candidates
             then nth_error row (convert_tokens_to_ids tokenizer tag)
             else Some neg_inf)
    /\ (last_tag = str "<s_total>" ->
        forall tag,
          In tag Receipt.get_xml_tags ->
          nth_error row' (convert_tokens_to_ids tokenizer tag)
          = Some neg_inf).
Proof.
  cbv zeta. intros Hround Hcall.
  destruct (call_row_spec _ _ _ Hcall)
    as (last_tag & candidates & Hlast & Hcand & _ & Hin & Hout).
  exists last_tag, candidates.
  assert (Htag : forall tag,
    In tag Receipt.get_xml_tags ->
    nth_error row' (convert_tokens_to_ids tokenizer tag)
    = if mem tag candidates
      then nth_error row (convert_tokens_to_ids tokenizer tag)
      else Some neg_inf).
  { intros tag Hlisted. destruct (mem tag candidates) eqn:Hmem.
    - apply Hout. rewrite forbidden_In.
      cbn [InferenceLogitsProcessor.init InferenceLogitsProcessor.tokenizer].
      rewrite (Hround _ Hlisted). apply mem_In in Hmem. tauto.
    - apply Hin. rewrite forbidden_In. split.
      + now apply in_map.
      + cbn [InferenceLogitsProcessor.init InferenceLogitsProcessor.tokenizer].
        rewrite (Hround _ Hlisted). now apply mem_not_In. }
  repeat split; try assumption.
  intros -> tag Hlisted. rewrite (Htag tag Hlisted).
  assert (candidates = [str "</s>"]) as ->
    by (vm_compute in Hcand; injection Hcand as <-; reflexivity).
  cbn [Receipt.get_xml_tags In] in Hlisted.
  repeat (destruct Hlisted as [<-|Hlisted]; [reflexivity|]). contradiction.
Qed.

Lemma vocab_round_trip :
  forall tag, In tag Receipt.get_xml_tags ->
              convert_ids_to_tokens Vocab.tokenizer
                (convert_tokens_to_ids Vocab.tokenizer tag) = tag.
Proof.
  intros tag Htag. cbn [Receipt.get_xml_tags In] in Htag.
  repeat (destruct Htag as [<-|Htag]; [reflexivity|]). contradiction.
Qed.

(** After [</s_company>] the entry [<s_date>] keeps its score and
    [<s_total>] is masked. *)
Lemma call_row_tag_scores_witness :
  exists row',
    InferenceLogitsProcessor.call_row
      (InferenceLogitsProcessor.init Vocab.tokenizer)
      [0; 8; 4; 9] (repeat Vocab.minus_one 16) = Ok row'
    /\ nth_error row' (convert_tokens_to_ids Vocab.tokenizer (str "<s_date>"))
       = Some Vocab.minus_one
    /\ nth_error row' (convert_tokens_to_ids Vocab.tokenizer (str "<s_total>"))
       = Some neg_inf.
Proof.
  eexists. split; [vm_compute; reflexivity|].
  match goal with
  | |- nth_error ?r _ = _ /\ _ =>
      destruct (@call_row_tag_scores Vocab.tokenizer [0; 8; 4; 9]
                  (repeat Vocab.minus_one 16) r vocab_round_trip)
        as (last_tag & candidates & Hlast & Hcand & Htag & _);
        [vm_compute; reflexivity|]
  end.
  assert (candidates = [str "<s_date>"]) as ->.
  { vm_compute in Hlast. injection Hlast as <-.
    vm_compute in Hcand. injection Hcand as <-. reflexivity. }
  split.
  - rewrite (Htag (str "<s_date>")) by (apply mem_In; reflexivity).
    reflexivity.
  - rewrite (Htag (str "<s_total>")) by (apply mem_In; reflexivity).
    reflexivity.
Defined.

(** X8. The table is a chain: a last tag with candidates has exactly one,
    which is another tag and is [</s>] or again a key, and no other key
    has the same candidate. *)
Theorem candidate_tags_chain (last_tag : pystr) (candidates : list pystr) :
  InferenceLogitsProcessor._candidate_tags last_tag = Ok candidates ->
  exists next,
    candidates = [next]
    /\ next <> last_tag
    /\ (next = str "</s>"
        \/ exists candidates',
            InferenceLogitsProcessor._candidate_tags next = Ok candidates')
    /\ forall other,
        InferenceLogitsProcessor._candidate_tags other = Ok candidates ->
        other = last_tag.
Proof.
  intros H. apply dict_get_found in H.
  unfold InferenceLogitsProcessor.transitions in H. cbn [In] in H.
  repeat (destruct H as [H|H];
    [ injection H as <- <-; eexists; split; [reflexivity|];
      split; [intros E; vm_compute in E; discriminate E|];
      split; [first [left; reflexivity | right; eexists; reflexivity]|];
      intros other Hother; apply dict_get_found in Hother;
      unfold InferenceLogitsProcessor.transitions in Hother;
      cbn [In] in Hother;
      repeat (destruct Hother as [Hother|Hother];
              [first [ injection Hother as <-; reflexivity
                     | exfalso; vm_compute in Hother; discriminate Hother ]|]);
      contradiction
    |]).
  contradiction.
Qed.

Lemma candidate_tags_chain_witness :
  exists next,
    [str "</s_date>"] = [next]
    /\ next <> str "<s_date>"
    /\ (next = str "</s>"
        \/ exists candidates',
            InferenceLogitsProcessor._candidate_tags next = Ok candidates')
    /\ forall other,
        InferenceLogitsProcessor._candidate_tags other
        = Ok [str "</s_date>"] ->
        other = str "<s_date>".
Proof.
  exact (candidate_tags_chain (str "<s_date>") eq_refl).
Defined.

(** ** model.py: the edit distance of a pair *)

Lemma edit_distance_cons (a b : char) (s1 s2 : pystr) :
  edit_distance (a :: s1) (b :: s2)
  = Nat.min (Nat.min (S (edit_distance s1 (b :: s2)))
                     (S (edit_distance (a :: s1) s2)))
            (edit_distance s1 s2 + (if (a =? b)%N then 0 else 1)).
Proof.
  reflexivity.
Qed.

Lemma edit_distance_nil_r (s : pystr) : edit_distance s [] = length s.
Proof.
  destruct s; reflexivity.
Qed.

Lemma edit_distance_same (s : pystr) : edit_distance s s = 0.
Proof.
  induction s as [|a s IH]; [reflexivity|].
  rewrite edit_distance_cons, IH, N.eqb_refl. lia.
Qed.

Lemma edit_distance_sym (s1 : pystr) :
  forall s2, edit_distance s1 s2 = edit_distance s2 s1.
Proof.
  induction s1 as [|a s1 IH]; intros s2.
  - now rewrite edit_distance_nil_r.
  - induction s2 as [|b s2 IH2].
    + now rewrite edit_distance_nil_r.
    + rewrite !edit_distance_cons.
      rewrite (IH (b :: s2)), IH2, (IH s2), (N.eqb_sym a b). lia.
Qed.

Lemma edit_distance_zero (s1 : pystr) :
  forall s2, edit_distance s1 s2 = 0 -> s1 = s2.
Proof.
  induction s1 as [|a s1 IH]; intros [|b s2] H; try reflexivity;
    try discriminate.
  rewrite edit_distance_cons in H.
  destruct (N.eqb_spec a b) as [->|Hab].
  - f_equal. apply IH. lia.
  - lia.
Qed.

Lemma edit_distance_lengths (s1 : pystr) :
  forall s2,
    length s1 <= length s2 + edit_distance s1 s2
    /\ length s2 <= length s1 + edit_distance s1 s2.
Proof.
  induction s1 as [|a s1 IH]; intros s2.
  - cbn. lia.
  - induction s2 as [|b s2 IH2].
    + cbn. lia.
    + rewrite edit_distance_cons. cbn [length].
      pose proof (IH (b :: s2)) as H1. pose proof (IH s2) as H3.
      cbn [length] in *. destruct (a =? b)%N; lia.
Qed.

Lemma normed_edit_distance_value (pred answer : pystr) (q : Q) :
  Model.normed_edit_distance pred answer = Ok q ->
  exists n,
    Nat.max (length pred) (length answer) = S n
    /\ q = (Z.of_nat (edit_distance pred answer) # Pos.of_nat (S n))%Q.
Proof.
  unfold Model.normed_edit_distance, Model.truediv.
  destruct (Nat.max (length pred) (length answer)) as [|n]; [discriminate|].
  intros H. injection H as <-. now exists n.
Qed.

Lemma normed_edit_distance_defined (pred answer : pystr) :
  answer <> [] ->
  exists q,
    Model.normed_edit_distance pred answer = Ok q /\ (0 <= q)%Q /\ (q <= 1)%Q.
Proof.
  intros Hne. unfold Model.normed_edit_distance, Model.truediv.
  pose proof (edit_distance_le_max pred answer) as Hle.
  destruct (Nat.max (length pred) (length answer)) as [|n] eqn:Hmax.
  - destruct answer; [congruence|]. cbn [length] in Hmax. lia.
  - eexists. split; [reflexivity|]. unfold Qle. cbn [Qnum Qden].
    rewrite <- Pos.of_nat_succ, Zpos_P_of_succ_nat. lia.
Qed.

(** X9. When a score is returned it is zero exactly for equal strings. *)
Theorem normed_edit_distance_zero_iff (pred answer : pystr) (q : Q) :
  Model.normed_edit_distance pred answer = Ok q ->
  (q == 0)%Q <-> pred = answer.
Proof.
  intros H. apply normed_edit_distance_value in H as (n & _ & ->).
  unfold Qeq. cbn [Qnum Qden]. split.
  - intros E. apply edit_distance_zero. lia.
  - intros ->. rewrite edit_distance_same. reflexivity.
Qed.

Lemma normed_edit_distance_zero_iff_witness :
  Model.normed_edit_distance (str "10.00") (str "10.00") = Ok (0 # 5)%Q
  /\ ((0 # 5 == 0)%Q <-> str "10.00" = str "10.00").
Proof.
  split; [reflexivity|].
  exact (@normed_edit_distance_zero_iff (str "10.00") (str "10.00")
           (0 # 5)%Q eq_refl).
Defined.

(** X10. The score does not depend on which string is the prediction and
    which is the answer. *)
Theorem normed_edit_distance_sym (pred answer : pystr) :
  Model.normed_edit_distance pred answer
  = Model.normed_edit_distance answer pred.
Proof.
  unfold Model.normed_edit_distance.
  now rewrite edit_distance_sym, Nat.max_comm.
Qed.

(** X11. A returned score is at least the difference of the two lengths
    divided by the greater length, and it is one when one of the strings is
    empty. *)
Theorem normed_edit_distance_lengths (pred answer : pystr) (q : Q) :
  Model.normed_edit_distance pred answer = Ok q ->
  let longer := Nat.max (length pred) (length answer) in
  let shorter := Nat.min (length pred) (length answer) in
  ((Z.of_nat (longer - shorter) # Pos.of_nat longer) <= q)%Q
  /\ (pred = [] \/ answer = [] -> (q == 1)%Q).
Proof.
  cbv zeta. intros H.
  apply normed_edit_distance_value in H as (n & Hmax & ->).
  rewrite Hmax. pose proof (edit_distance_lengths pred answer) as [H1 H2].
  pose proof (edit_distance_le_max pred answer) as Hle.
  split.
  - unfold Qle. cbn [Qnum Qden]. apply Z.mul_le_mono_nonneg_r; lia.
  - intros Hempty. unfold Qeq. cbn [Qnum Qden].
    rewrite <- Pos.of_nat_succ, Zpos_P_of_succ_nat.
    destruct Hempty as [-> | ->]; cbn [length] in *; lia.
Qed.

Lemma normed_edit_distance_lengths_witness :
  Model.normed_edit_distance (str "") (str "10.00") = Ok (5 # 5)%Q
  /\ (5 # 5 == 1)%Q
  /\ ((Z.of_nat (5 - 0) # Pos.of_nat 5) <= 5 # 5)%Q.
Proof.
  split; [reflexivity|].
  destruct (@normed_edit_distance_lengths (str "") (str "10.00") (5 # 5)%Q
              eq_refl) as [Hlow Hone].
  split; [apply Hone; now left | exact Hlow].
Defined.

(** ** model.py: the mean of a validation batch *)

Lemma scores_done (predictions : list pystr) :
  forall targets,
    Forall (fun answer => answer <> []) targets ->
    length predictions = length targets ->
    exists l,
      Validation.scores predictions targets = Validation.Done l
      /\ length l = length targets
      /\ Forall2 (fun pair score =>
                    Model.normed_edit_distance (fst pair) (snd pair)
                    = Ok score)
                 (combine predictions targets) l
      /\ Forall (fun q => (0 <= q)%Q /\ (q <= 1)%Q) l.
Proof.
  induction predictions as [|pred predictions IH];
    intros [|answer targets] Hne Hlen; cbn [length] in Hlen; try lia.
  - exists []. repeat split; constructor.
  - inversion Hne as [|x l Hanswer Hrest]; subst.
    destruct (normed_edit_distance_defined pred Hanswer) as (q & Hq & Hq01).
    destruct (IH targets Hrest) as (l & Hl & Hlength & Hpairs & Hall); [lia|].
    exists (q :: l). cbn [Validation.scores combine]. rewrite Hq, Hl.
    split; [reflexivity|]. split; [cbn [length]; lia|].
    split; now constructor.
Qed.

Lemma scores_mismatch (predictions : list pystr) :
  forall targets,
    Forall (fun answer => answer <> []) targets ->
    length predictions <> length targets ->
    Validation.scores predictions targets = Validation.ValueError.
Proof.
  induction predictions as [|pred predictions IH];
    intros [|answer targets] Hne Hlen; cbn [length] in Hlen;
    try reflexivity; try lia.
  inversion Hne as [|x l Hanswer Hrest]; subst.
  destruct (normed_edit_distance_defined pred Hanswer) as (q & Hq & _).
  cbn [Validation.scores]. rewrite Hq, (IH targets Hrest) by lia.
  reflexivity.
Qed.

Lemma sum_bounds (l : list Q) :
  Forall (fun q => (0 <= q)%Q /\ (q <= 1)%Q) l ->
  forall acc,
    (acc <= fold_left Qplus l acc)%Q
    /\ (fold_left Qplus l acc <= acc + inject_Z (Z.of_nat (length l)))%Q.
Proof.
  induction 1 as [|q l [Hq0 Hq1] Hall IH]; intros acc; cbn [fold_left length].
  - split; [apply Qle_refl|].
    rewrite Qplus_0_r. apply Qle_refl.
  - destruct (IH (acc + q)%Q) as [Hlow Hhigh]. split.
    + apply Qle_trans with (acc + q)%Q; [|exact Hlow].
      rewrite <- (Qplus_0_r acc) at 1. now apply Qplus_le_r.
    + apply Qle_trans with (acc + q + inject_Z (Z.of_nat (length l)))%Q;
        [exact Hhigh|].
      rewrite Nat2Z.inj_succ. unfold Z.succ. rewrite inject_Z_plus.
      rewrite <- Qplus_assoc. apply Qplus_le_r.
      rewrite (Qplus_comm (inject_Z (Z.of_nat (length l)))).
      now apply Qplus_le_l.
Qed.

Lemma fold_left_Qplus (l : list Q) :
  forall acc, (fold_left Qplus l acc == acc + fold_right Qplus 0 l)%Q.
Proof.
  induction l as [|q l IH]; intros acc; cbn [fold_left fold_right].
  - now rewrite Qplus_0_r.
  - rewrite IH. ring.
Qed.

(** X12. With targets that are not empty: for as many predictions as
    targets, at least one, the loop gives the score of each pair in order
    and the batch mean returned is their sum divided by their number, a
    value between 0 and 1; for a different number of predictions the loop
    ends in the [ValueError] of [zip]; and an empty batch ends in
    [ZeroDivisionError]. *)
Theorem validation_average_outcome (predictions targets : list pystr) :
  Forall (fun answer => answer <> []) targets ->
  (length predictions = length targets -> targets <> [] ->
   exists l q,
     Forall2 (fun pair score =>
                Model.normed_edit_distance (fst pair) (snd pair) = Ok score)
             (combine predictions targets) l
     /\ length l = length targets
     /\ Validation.validation_average predictions targets = Validation.Done q
     /\ (q == fold_right Qplus 0 l / inject_Z (Z.of_nat (length l)))%Q
     /\ (0 <= q)%Q /\ (q <= 1)%Q)
  /\ (length predictions <> length targets ->
      Validation.validation_average predictions targets
      = Validation.ValueError)
  /\ (predictions = [] -> targets = [] ->
      Validation.validation_average predictions targets
      = Validation.Failed ZeroDivisionError).
Proof.
  intros Hne. unfold Validation.validation_average. repeat split.
  - intros Hlen Hsome.
    destruct (scores_done predictions Hne Hlen)
      as (l & -> & Hlength & Hpairs & Hall).
    destruct l as [|q0 l].
    { destruct targets; [congruence | discriminate]. }
    unfold Validation.average_score, Validation.sum.
    exists (q0 :: l). eexists.
    split; [exact Hpairs|]. split; [exact Hlength|].
    split; [reflexivity|].
    destruct (sum_bounds Hall 0%Q) as [Hlow Hhigh].
    rewrite Qplus_0_l in Hhigh.
    assert (Hpos : (0 < inject_Z (Z.of_nat (length (q0 :: l))))%Q).
    { rewrite <- (Zlt_Qlt 0). cbn [length]. lia. }
    split; [|split].
    + rewrite fold_left_Qplus, Qplus_0_l. reflexivity.
    + apply Qle_shift_div_l; [exact Hpos|]. now rewrite Qmult_0_l.
    + apply Qle_shift_div_r; [exact Hpos|]. now rewrite Qmult_1_l.
  - intros Hlen. now rewrite scores_mismatch.
  - intros -> ->. reflexivity.
Qed.

(** Two pairs with the scores 1/5 and 0, hence the mean 1/10; then one
    prediction for two targets. *)
Lemma validation_average_outcome_witness :
  (exists q,
      Validation.validation_average
        [str "10.0"; str "A"] [str "10.00"; str "A"] = Validation.Done q
      /\ (q == 1 # 10)%Q /\ (0 <= q)%Q /\ (q <= 1)%Q)
  /\ Validation.validation_average [str "10.0"] [str "10.00"; str "A"]
     = Validation.ValueError.
Proof.
  assert (Hne : Forall (fun answer : pystr => answer <> [])
                       [str "10.00"; str "A"])
    by (repeat constructor; discriminate).
  split.
  - destruct (proj1 (validation_average_outcome [str "10.0"; str "A"] Hne))
      as (l & q & Hpairs & _ & Hq & Hmean & H0 & H1);
      [reflexivity | discriminate |].
    exists q. split; [exact Hq|]. split; [|split; assumption].
    cbn [combine] in Hpairs.
    inversion Hpairs as [|p1 s1 ps1 l1 Hs1 Hrest1]; subst.
    inversion Hrest1 as [|p2 s2 ps2 l2 Hs2 Hrest2]; subst.
    inversion Hrest2; subst.
    cbn [fst snd] in Hs1, Hs2.
    vm_compute in Hs1. injection Hs1 as <-.
    vm_compute in Hs2. injection Hs2 as <-.
    rewrite Hmean. reflexivity.
  - apply (proj1 (proj2 (validation_average_outcome [str "10.0"] Hne))).
    cbn. lia.
Defined.

(** ** model.py: what the cleaning of the decoded text deletes *)

Lemma Subseq_refl (s : pystr) : Subseq s s.
Proof.
  induction s; constructor; assumption.
Qed.

Lemma Subseq_app_keep (x a b : pystr) : Subseq a b -> Subseq (x ++ a) (x ++ b).
Proof.
  intros H. induction x; cbn [app]; [assumption | now constructor].
Qed.

Lemma Subseq_app_drop (g a b : pystr) : Subseq a b -> Subseq a (g ++ b).
Proof.
  intros H. induction g; cbn [app]; [assumption | now constructor].
Qed.

Lemma Subseq_trans (a b c : pystr) : Subseq a b -> Subseq b c -> Subseq a c.
Proof.
  intros Hab Hbc. revert a Hab.
  induction Hbc as [l | x b c Hbc IH | x b c Hbc IH]; intros a Hab.
  - inversion Hab; subst. constructor.
  - inversion Hab; subst.
    + constructor.
    + constructor. now apply IH.
    + apply Subseq_drop. now apply IH.
  - apply Subseq_drop. now apply IH.
Qed.

Lemma Subseq_length (a b : pystr) : Subseq a b -> length a <= length b.
Proof.
  induction 1; cbn [length]; lia.
Qed.

Section ScanDeletes.

Variable m : pystr -> option (pystr * pystr).

Hypothesis m_consumes :
  forall s out rest, m s = Some (out, rest) -> length rest < length s.

(** The matcher emits the start of the text it reads and drops what
    follows up to the rest. *)
Hypothesis m_keeps :
  forall s out rest,
    m s = Some (out, rest) -> exists gap, s = out ++ gap ++ rest.

Lemma sub_all_subseq (n : nat) :
  forall s, length s <= n -> Subseq (sub_all m s) s.
Proof.
  induction n as [|n IH]; intros s Hn.
  - destruct s; [|cbn [length] in Hn; lia].
    rewrite (@sub_all_nil m m_consumes). constructor.
  - destruct (m s) as [[out rest]|] eqn:Hm.
    + rewrite (@sub_all_match m m_consumes s out rest Hm).
      pose proof (m_consumes Hm) as Hlt.
      destruct (m_keeps Hm) as [gap ->].
      apply Subseq_app_keep, Subseq_app_drop, IH. lia.
    + destruct s as [|c s].
      * rewrite (@sub_all_nil m m_consumes). constructor.
      * rewrite (@sub_all_skip m c s Hm). constructor. apply IH.
        cbn [length] in Hn. lia.
Qed.

End ScanDeletes.

Lemma replace_subseq (s old : pystr) : Subseq (replace_with_empty s old) s.
Proof.
  destruct old as [|a old]; [apply Subseq_refl|].
  cbn [replace_with_empty].
  apply (@sub_all_subseq (match_literal (a :: old))) with (n := length s).
  - apply match_literal_consumes. discriminate.
  - intros t out rest. unfold match_literal.
    destruct (prefix (a :: old) t) eqn:Hp; [|discriminate].
    intros H. injection H as <- <-. exists (a :: old).
    now apply prefix_true in Hp.
  - reflexivity.
Qed.

Lemma sub_subseq (s : pystr) : Subseq (sub s) s.
Proof.
  apply (@sub_all_subseq match_pattern) with (n := length s).
  - exact match_pattern_consumes.
  - intros t out rest H.
    apply match_pattern_inv in H as (name & w & _ & _ & _ & -> & ->).
    now exists [w].
  - reflexivity.
Qed.

(** X13. [canonicalize] only deletes characters: what it returns is a
    subsequence of the decoded text, and so is never longer. *)
Theorem canonicalize_subseq (self : Model.t) (s : pystr) :
  Subseq (Model.canonicalize self s) s
  /\ length (Model.canonicalize self s) <= length s.
Proof.
  assert (H : Subseq (Model.canonicalize self s) s).
  { unfold Model.canonicalize. cbv zeta.
    eapply Subseq_trans; [apply sub_subseq | apply replace_subseq]. }
  split; [exact H | now apply Subseq_length].
Qed.

Lemma sub_length_lt (s : pystr) :
  search s = true -> length (sub s) < length s.
Proof.
  apply (@sub_all_length match_pattern) with (n := length s).
  - exact match_pattern_consumes.
  - exact match_pattern_shrinks.
  - reflexivity.
Qed.

Lemma canonicalize_shorter (self : Model.t) (t : pystr) :
  pad_token (Model.tokenizer self) <> [] ->
  Model.canonicalize self t <> t ->
  length (Model.canonicalize self t) < length t.
Proof.
  intros Hpad Hne.
  destruct (occurs (pad_token (Model.tokenizer self)) t) eqn:Hocc.
  - pose proof (replace_length_lt t Hpad Hocc) as Hlt.
    pose proof (sub_length
                  (replace_with_empty t (pad_token (Model.tokenizer self))))
      as Hle.
    unfold Model.canonicalize. cbv zeta. unfold pystr, char in *. lia.
  - destruct (search t) eqn:Hsearch.
    + unfold Model.canonicalize. cbv zeta.
      rewrite (replace_fixed _ _ Hocc). now apply sub_length_lt.
    + exfalso. apply Hne. now apply canonicalize_fixed_iff.
Qed.

Lemma iter_fixed {A : Type} (f : A -> A) (x : A) (n : nat) :
  f x = x -> Nat.iter n f x = x.
Proof.
  intros H. induction n as [|n IH]; [reflexivity|].
  now rewrite Nat.iter_succ, IH.
Qed.

(** X14. With a non-empty padding token, applying [canonicalize] as many
    times as the decoded text has characters gives a text that
    [canonicalize] returns unchanged. *)
Theorem canonicalize_iterate (self : Model.t) (s : pystr) :
  pad_token (Model.tokenizer self) <> [] ->
  let t := Nat.iter (length s) (Model.canonicalize self) s in
  Model.canonicalize self t = t.
Proof.
  intros Hpad. cbv zeta.
  assert (H : forall n t, length t <= n ->
    Model.canonicalize self (Nat.iter n (Model.canonicalize self) t)
    = Nat.iter n (Model.canonicalize self) t).
  { induction n as [|n IH]; intros t Hn.
    - destruct t; [|cbn [length] in Hn; lia].
      change (Nat.iter 0 (Model.canonicalize self) []) with (@nil char).
      apply canonicalize_fixed_iff; [exact Hpad|].
      split; [|reflexivity].
      destruct (pad_token (Model.tokenizer self)); [congruence | reflexivity].
    - rewrite Nat.iter_succ_r.
      destruct (list_eq_dec N.eq_dec (Model.canonicalize self t) t) as [E|E].
      + rewrite E, iter_fixed by exact E. exact E.
      + apply IH. pose proof (@canonicalize_shorter self t Hpad E).
        unfold pystr, char in *. lia. }
  now apply H.
Qed.

(** Two spaces after the tag take two passes; seventeen are made. *)
Lemma canonicalize_iterate_witness :
  let self := Model.init Vocab.tokenizer in
  let s := str "<s_company>  ACME" in
  pad_token (Model.tokenizer self) <> []
  /\ Nat.iter (length s) (Model.canonicalize self) s = str "<s_company>ACME"
  /\ Model.canonicalize self
       (Nat.iter (length s) (Model.canonicalize self) s)
     = Nat.iter (length s) (Model.canonicalize self) s.
Proof.
  cbv zeta.
  assert (Hpad : pad_token (Model.tokenizer (Model.init Vocab.tokenizer)) <> [])
    by discriminate.
  split; [exact Hpad|]. split; [vm_compute; reflexivity|].
  exact (canonicalize_iterate (Model.init Vocab.tokenizer)
           (str "<s_company>  ACME") Hpad).
Defined.

Lemma prefix_app_l (p a x : pystr) :
  prefix p a = true -> prefix p (a ++ x) = true.
Proof.
  intros H. apply prefix_true in H. rewrite H, <- app_assoc.
  apply prefix_app.
Qed.

Lemma occurs_app_l (p a x : pystr) :
  occurs p (a ++ x) = false -> occurs p a = false.
Proof.
  induction a as [|c a IH]; cbn [app].
  - intros H. cbn [occurs]. rewrite orb_false_r.
    destruct (prefix p []) eqn:Hp; [|reflexivity].
    apply (prefix_app_l _ _ x) in Hp. cbn [app] in Hp.
    destruct x; cbn [occurs] in H; apply orb_false_iff in H as [H _];
      congruence.
  - cbn [occurs]. intros H. apply orb_false_iff in H as [Hp Hocc].
    apply orb_false_iff. split; [|now apply IH].
    destruct (prefix p (c :: a)) eqn:Hpa; [|reflexivity].
    apply (prefix_app_l _ _ x) in Hpa. cbn [app] in Hpa. congruence.
Qed.

Lemma replace_padding (pad : pystr) (n : nat) :
  pad <> [] -> replace_with_empty (concat (repeat pad n)) pad = [].
Proof.
  intros Hpad. induction n as [|n IH]; cbn [repeat concat].
  - apply replace_fixed. destruct pad; [congruence | reflexivity].
  - now rewrite replace_prefix.
Qed.

(** X15. Padding tokens at the end of the decoded text are all removed,
    however many there are, when the token starts nowhere in the text
    before them: the result is that text with the pattern substituted. *)
Theorem canonicalize_trailing_padding
        (self : Model.t) (a : pystr) (n : nat) :
  let pad := pad_token (Model.tokenizer self) in
  pad <> [] ->
  occurs pad (a ++ removelast pad) = false ->
  Model.canonicalize self (a ++ concat (repeat pad n)) = sub a.
Proof.
  cbv zeta. intros Hpad Hocc. unfold Model.canonicalize. cbv zeta. f_equal.
  destruct n as [|n]; cbn [repeat concat].
  - rewrite app_nil_r. apply replace_fixed. now apply occurs_app_l in Hocc.
  - rewrite (@replace_chunk _ Hpad _ _ Hocc), replace_padding by exact Hpad.
    apply app_nil_r.
Qed.

Lemma canonicalize_trailing_padding_witness :
  Model.canonicalize (Model.init Vocab.tokenizer)
    (str "<s_company> ACME" ++ concat (repeat (str "<pad>") 3))
  = sub (str "<s_company> ACME")
  /\ sub (str "<s_company> ACME") = str "<s_company>ACME".
Proof.
  split; [|vm_compute; reflexivity].
  apply (canonicalize_trailing_padding (Model.init Vocab.tokenizer)
           (str "<s_company> ACME") 3).
  - discriminate.
  - vm_compute. reflexivity.
Defined.

(** ** receipt.py and model.py: the target string *)

Lemma search_skip (c : char) (s : pystr) :
  match_pattern (c :: s) = None -> search (c :: s) = search s.
Proof.
  intros H. unfold search. cbn [somewhere]. now rewrite H.
Qed.

Lemma search_skip_run (a r : pystr) :
  Forall (fun c => c <> chr "<") a -> search (a ++ r) = search r.
Proof.
  induction 1 as [|c a Hc Ha IH]; cbn [app]; [reflexivity|].
  rewrite search_skip by now apply match_pattern_not_lt. exact IH.
Qed.

(** A tag at which the pattern does not match is passed over. *)
Lemma search_tag (body rest : pystr) :
  Forall (fun c => c <> chr "<") body ->
  match_pattern ((chr "<" :: body) ++ rest) = None ->
  search ((chr "<" :: body) ++ rest) = search rest.
Proof.
  intros Hbody Hm. cbn [app] in *. rewrite search_skip by exact Hm.
  now apply search_skip_run.
Qed.

Lemma match_pattern_open_plain (name rest : pystr) :
  forallb is_word name = true ->
  match rest with
  | [] => True
  | c :: _ => is_space c = false
  end ->
  match_pattern (open_tag name ++ rest) = None.
Proof.
  intros Hname Hrest. unfold match_pattern, open_tag.
  rewrite <- !app_assoc, prefix_app.
  change 3 with (length (str "<s_")). rewrite skipn_prefix.
  change (str ">" ++ rest) with (chr ">" :: rest).
  rewrite span_run by (assumption || reflexivity).
  destruct name as [|x name]; [reflexivity|].
  destruct rest as [|w rest]; [reflexivity|].
  now rewrite Hrest, andb_false_r.
Qed.

Lemma plain_field_head (f r : pystr) :
  plain_field f ->
  match f ++ chr "<" :: r with
  | [] => True
  | c :: _ => is_space c = false
  end.
Proof.
  intros [_ Hhead]. destruct f; [reflexivity | exact Hhead].
Qed.

Lemma search_xml (r : Receipt.Receipt) :
  plain_field (Receipt.company r) -> plain_field (Receipt.date r) ->
  plain_field (Receipt.address r) -> plain_field (Receipt.total r) ->
  search (Receipt.xml r) = false.
Proof.
  intros Hc Hd Ha Ht. unfold Receipt.xml. rewrite <- !app_assoc.
  change (str "<s>") with (chr "<" :: str "s>").
  rewrite search_tag;
    [|repeat constructor; discriminate | reflexivity].
  change (str "<s_company>") with (chr "<" :: str "s_company>").
  rewrite search_tag;
    [|repeat constructor; discriminate
     |apply (@match_pattern_open_plain (str "company")); [reflexivity|];
      change (str "</s_company>") with (chr "<" :: str "/s_company>");
      now apply plain_field_head].
  rewrite search_skip_run by apply Hc.
  change (str "</s_company>") with (chr "<" :: str "/s_company>").
  rewrite search_tag;
    [|repeat constructor; discriminate | reflexivity].
  change (str "<s_date>") with (chr "<" :: str "s_date>").
  rewrite search_tag;
    [|repeat constructor; discriminate
     |apply (@match_pattern_open_plain (str "date")); [reflexivity|];
      change (str "</s_date>") with (chr "<" :: str "/s_date>");
      now apply plain_field_head].
  rewrite search_skip_run by apply Hd.
  change (str "</s_date>") with (chr "<" :: str "/s_date>").
  rewrite search_tag;
    [|repeat constructor; discriminate | reflexivity].
  change (str "<s_address>") with (chr "<" :: str "s_address>").
  rewrite search_tag;
    [|repeat constructor; discriminate
     |apply (@match_pattern_open_plain (str "address")); [reflexivity|];
      change (str "</s_address>") with (chr "<" :: str "/s_address>");
      now apply plain_field_head].
  rewrite search_skip_run by apply Ha.
  change (str "</s_address>") with (chr "<" :: str "/s_address>").
  rewrite search_tag;
    [|repeat constructor; discriminate | reflexivity].
  change (str "<s_total>") with (chr "<" :: str "s_total>").
  rewrite search_tag;
    [|repeat constructor; discriminate
     |apply (@match_pattern_open_plain (str "total")); [reflexivity|];
      change (str "</s_total>") with (chr "<" :: str "/s_total>");
      now apply plain_field_head].
  rewrite search_skip_run by apply Ht.
  reflexivity.
Qed.

Lemma xml_length (r : Receipt.Receipt) :
  length (Receipt.xml r)
  = 89 + length (Receipt.company r) + length (Receipt.date r)
    + length (Receipt.address r) + length (Receipt.total r).
Proof.
  unfold Receipt.xml. rewrite !length_app.
  change (length (str "<s>")) with 3.
  change (length (str "<s_company>")) with 11.
  change (length (str "</s_company>")) with 12.
  change (length (str "<s_date>")) with 8.
  change (length (str "</s_date>")) with 9.
  change (length (str "<s_address>")) with 11.
  change (length (str "</s_address>")) with 12.
  change (length (str "<s_total>")) with 9.
  change (length (str "</s_total>")) with 10.
  change (length (str "</s>")) with 4.
  unfold pystr, char in *. lia.
Qed.

Lemma xml_not_empty (r : Receipt.Receipt) : Receipt.xml r <> [].
Proof.
  intros E. apply (f_equal (@length _)) in E. rewrite xml_length in E.
  cbn [length] in E. lia.
Qed.

(** X16. A target whose fields hold no [<] and start with no whitespace,
    and in which the padding token does not occur, is returned unchanged by
    [canonicalize]; decoded as it is, it gets the score zero. *)
Theorem xml_canonical (self : Model.t) (r : Receipt.Receipt) :
  plain_field (Receipt.company r) -> plain_field (Receipt.date r) ->
  plain_field (Receipt.address r) -> plain_field (Receipt.total r) ->
  occurs (pad_token (Model.tokenizer self)) (Receipt.xml r) = false ->
  Model.canonicalize self (Receipt.xml r) = Receipt.xml r
  /\ exists q,
      Model.normed_edit_distance
        (Model.canonicalize self (Receipt.xml r)) (Receipt.xml r) = Ok q
      /\ (q == 0)%Q.
Proof.
  intros Hc Hd Ha Ht Hocc.
  assert (Hfix : Model.canonicalize self (Receipt.xml r) = Receipt.xml r).
  { unfold Model.canonicalize. cbv zeta. rewrite (replace_fixed _ _ Hocc).
    apply sub_fixed_iff. now apply search_xml. }
  split; [exact Hfix|]. rewrite Hfix.
  destruct (normed_edit_distance_defined (Receipt.xml r) (@xml_not_empty r))
    as (q & Hq & _).
  exists q. split; [exact Hq|].
  apply normed_edit_distance_value in Hq as (n & _ & ->).
  rewrite edit_distance_same. reflexivity.
Qed.

Lemma xml_canonical_witness :
  let self := Model.init Vocab.tokenizer in
  let r := Receipt.mkReceipt (str "img/1.jpg") (str "ACME")
                             (str "2024-01-01") (str "") (str "10.00") in
  Model.canonicalize self (Receipt.xml r) = Receipt.xml r
  /\ exists q,
      Model.normed_edit_distance
        (Model.canonicalize self (Receipt.xml r)) (Receipt.xml r) = Ok q
      /\ (q == 0)%Q.
Proof.
  cbv zeta.
  apply (@xml_canonical (Model.init Vocab.tokenizer)
           (Receipt.mkReceipt (str "img/1.jpg") (str "ACME")
                              (str "2024-01-01") (str "") (str "10.00")));
    try (split; [repeat constructor; discriminate | reflexivity]).
  vm_compute. reflexivity.
Defined.

(** X17. A target has 89 characters more than its four fields together,
    so it is never empty, and the score of any prediction against it is
    returned and lies between 0 and 1. *)
Theorem xml_score_defined (r : Receipt.Receipt) (pred : pystr) :
  length (Receipt.xml r)
  = 89 + length (Receipt.company r) + length (Receipt.date r)
    + length (Receipt.address r) + length (Receipt.total r)
  /\ exists q,
      Model.normed_edit_distance pred (Receipt.xml r) = Ok q
      /\ (0 <= q)%Q /\ (q <= 1)%Q.
Proof.
  split; [apply xml_length|].
  apply normed_edit_distance_defined, xml_not_empty.
Qed.

Lemma split_at (c : char) (a : pystr) :
  forall b x y,
    Forall (fun d => d <> c) a -> Forall (fun d => d <> c) b ->
    a ++ c :: x = b ++ c :: y -> a = b /\ x = y.
Proof.
  induction a as [|d a IH]; intros [|e b] x y Ha Hb H; cbn [app] in H.
  - injection H as <-. auto.
  - injection H as <- _. inversion Hb; congruence.
  - injection H as -> _. inversion Ha; congruence.
  - injection H as <- H. inversion Ha; inversion Hb; subst.
    destruct (IH b x y) as [-> ->]; auto.
Qed.

(** X18. Two receipts whose fields hold no [<] and that have the same
    target string have the same four fields. *)
Theorem xml_injective (r1 r2 : Receipt.Receipt) :
  (forall f,
      In f [ Receipt.company r1; Receipt.date r1; Receipt.address r1;
             Receipt.total r1; Receipt.company r2; Receipt.date r2;
             Receipt.address r2; Receipt.total r2 ] ->
      Forall (fun c => c <> chr "<") f) ->
  Receipt.xml r1 = Receipt.xml r2 ->
  Receipt.company r1 = Receipt.company r2
  /\ Receipt.date r1 = Receipt.date r2
  /\ Receipt.address r1 = Receipt.address r2
  /\ Receipt.total r1 = Receipt.total r2.
Proof.
  intros Hplain H. unfold Receipt.xml in H. rewrite <- !app_assoc in H.
  apply app_inv_head in H. apply app_inv_head in H.
  change (str "</s_company>") with (chr "<" :: str "/s_company>") in H.
  apply split_at in H as [Hcompany H];
    [|apply Hplain; cbn; tauto | apply Hplain; cbn; tauto].
  apply app_inv_head in H. apply app_inv_head in H.
  change (str "</s_date>") with (chr "<" :: str "/s_date>") in H.
  apply split_at in H as [Hdate H];
    [|apply Hplain; cbn; tauto | apply Hplain; cbn; tauto].
  apply app_inv_head in H. apply app_inv_head in H.
  change (str "</s_address>") with (chr "<" :: str "/s_address>") in H.
  apply split_at in H as [Haddress H];
    [|apply Hplain; cbn; tauto | apply Hplain; cbn; tauto].
  apply app_inv_head in H. apply app_inv_head in H.
  change (str "</s_total>") with (chr "<" :: str "/s_total>") in H.
  apply split_at in H as [Htotal _];
    [|apply Hplain; cbn; tauto | apply Hplain; cbn; tauto].
  auto.
Qed.

(** Two receipts of the same content for two images. *)
Lemma xml_injective_witness :
  let r1 := Receipt.mkReceipt (str "a.jpg") (str "ACME") (str "2024-01-01")
                              (str "") (str "10.00") in
  let r2 := Receipt.mkReceipt (str "b.jpg") (str "ACME") (str "2024-01-01")
                              (str "") (str "10.00") in
  Receipt.xml r1 = Receipt.xml r2
  /\ Receipt.company r1 = Receipt.company r2
  /\ Receipt.date r1 = Receipt.date r2
  /\ Receipt.address r1 = Receipt.address r2
  /\ Receipt.total r1 = Receipt.total r2.
Proof.
  cbv zeta. split; [reflexivity|].
  apply xml_injective; [|reflexivity].
  intros f Hf. cbn [In Receipt.company Receipt.date Receipt.address
                    Receipt.total] in Hf.
  repeat (destruct Hf as [<-|Hf]; [repeat constructor; discriminate|]).
  contradiction.
Defined.

(** ** dataset.py: how many labels count *)

Lemma mask_pad_count (pad : nat) (ids : list nat) :
  length (filter (fun x => negb (x =? Dataset.ignore_id)%Z)
                 (Dataset.mask_pad pad (map Z.of_nat ids)))
  = length (filter (fun id => negb (id =? pad)) ids).
Proof.
  unfold Dataset.mask_pad. induction ids as [|id ids IH]; [reflexivity|].
  cbn [map filter].
  destruct (Nat.eqb_spec id pad) as [->|Hne].
  - rewrite Z.eqb_refl. cbn [negb]. rewrite Z.eqb_refl. cbn [negb]. exact IH.
  - destruct (Z.eqb_spec (Z.of_nat id) (Z.of_nat pad)) as [E|_]; [lia|].
    destruct (Z.eqb_spec (Z.of_nat id) Dataset.ignore_id) as [E|_].
    + unfold Dataset.ignore_id in E. lia.
    + cbn [negb length]. now rewrite IH.
Qed.

Lemma filter_repeat_pad (pad k : nat) :
  filter (fun id => negb (id =? pad)) (repeat pad k) = [].
Proof.
  induction k as [|k IH]; cbn [repeat filter]; [reflexivity|].
  now rewrite Nat.eqb_refl.
Qed.

Lemma filter_all {A : Type} (f : A -> bool) (l : list A) :
  Forall (fun x => f x = true) l -> filter f l = l.
Proof.
  induction 1 as [|x l Hx Hl IH]; cbn [filter]; [reflexivity|].
  now rewrite Hx, IH.
Qed.

(** X19. The labels other than [-100] are as many as the ids other than
    the padding id among the first [L] ids of the target; when no id of the
    target is the padding id they are [min(L, n)] for [n] ids; and every
    position from [n] on holds [-100]. *)
Theorem target_string_to_tensor_count (model : Model.t) (target : pystr) :
  let L := Model.decoder_max_length model in
  let tokenizer := Model.tokenizer model in
  let ids := encode tokenizer target in
  let pad := pad_token_id tokenizer in
  let labels := Dataset._target_string_to_tensor model target in
  let counted :=
    length (filter (fun x => negb (x =? Dataset.ignore_id)%Z) labels) in
  counted = length (filter (fun id => negb (id =? pad)) (firstn L ids))
  /\ (Forall (fun id => id <> pad) ids -> counted = Nat.min L (length ids))
  /\ (forall i, length ids <= i -> i < L ->
                nth_error labels i = Some Dataset.ignore_id).
Proof.
  cbv zeta.
  assert (Hcount :
    length (filter (fun x => negb (x =? Dataset.ignore_id)%Z)
                   (Dataset._target_string_to_tensor model target))
    = length (filter (fun id => negb (id =? pad_token_id (Model.tokenizer model)))
                     (firstn (Model.decoder_max_length model)
                             (encode (Model.tokenizer model) target)))).
  { unfold Dataset._target_string_to_tensor, Dataset.squeeze0,
      Dataset.tokenizer_call. cbn [hd].
    rewrite mask_pad_count, filter_app, filter_repeat_pad.
    now rewrite app_nil_r. }
  split; [exact Hcount|]. split.
  - intros Hall. rewrite Hcount, filter_all.
    + apply length_firstn.
    + apply Forall_forall. intros id Hid. apply negb_true_iff, Nat.eqb_neq.
      rewrite Forall_forall in Hall. apply Hall.
      rewrite <- (firstn_skipn (Model.decoder_max_length model)).
      apply in_or_app. now left.
  - intros i Hi HL.
    unfold Dataset._target_string_to_tensor, Dataset.squeeze0,
      Dataset.tokenizer_call, Dataset.mask_pad. cbn [hd].
    rewrite map_map, nth_error_map.
    rewrite firstn_all2 by lia.
    rewrite nth_error_app2 by exact Hi.
    rewrite nth_error_repeat by lia.
    cbn [option_map]. now rewrite Z.eqb_refl.
Qed.

(** Four ids for [L = 6], none of them the padding id 1. *)
Lemma target_string_to_tensor_count_witness :
  let labels :=
    Dataset._target_string_to_tensor (Model.mk Vocab.tokenizer 6)
                                     (str "ACME") in
  length (filter (fun x => negb (x =? Dataset.ignore_id)%Z) labels)
  = Nat.min 6 (length (encode Vocab.tokenizer (str "ACME")))
  /\ nth_error labels 5 = Some Dataset.ignore_id.
Proof.
  cbv zeta.
  destruct (target_string_to_tensor_count (Model.mk Vocab.tokenizer 6)
                                          (str "ACME"))
    as (_ & Hmin & Htail).
  split.
  - apply Hmin. vm_compute. repeat constructor; discriminate.
  - apply Htail; vm_compute; lia.
Defined.

(** ** dataset.py: the receipts of [load] *)

Lemma dict_get_present {V : Type} (d : list (pystr * V)) (k : pystr) :
  In k (map fst d) -> exists v, dict_get d k = Ok v.
Proof.
  induction d as [|[k' v] d IH]; cbn [map fst In dict_get]; intros H.
  - contradiction.
  - destruct (eqb k k') eqn:E; [now exists v|].
    apply eqb_neq in E. destruct H as [H|H]; [congruence | now apply IH].
Qed.

(** X20. A file content makes a receipt exactly when it has the keys
    company, date and total, and [KeyError] is raised otherwise; the fields
    are the values of the keys, and a content without the key address gives
    the empty address. *)
Theorem receipt_of_outcome (img : pystr -> pystr) (filename : pystr)
        (content : list (pystr * pystr)) :
  (forall e,
      Loader.receipt_of img (filename, content) = Raise e ->
      e = KeyError
      /\ exists k,
          In k [str "company"; str "date"; str "total"]
          /\ ~ In k (map fst content))
  /\ (forall r,
         Loader.receipt_of img (filename, content) = Ok r ->
         dict_get content (str "company") = Ok (Receipt.company r)
         /\ dict_get content (str "date") = Ok (Receipt.date r)
         /\ dict_get content (str "total") = Ok (Receipt.total r)
         /\ (~ In (str "address") (map fst content) ->
             Receipt.address r = [])
         /\ (forall v, dict_get content (str "address") = Ok v ->
                       Receipt.address r = v))
  /\ ((forall k, In k [str "company"; str "date"; str "total"] ->
                 In k (map fst content)) ->
      exists r, Loader.receipt_of img (filename, content) = Ok r).
Proof.
  unfold Loader.receipt_of. repeat split.
  - destruct (dict_get content (str "company")) as [c|e0] eqn:Hc;
      cbn [bind] in H.
    + destruct (dict_get content (str "date")) as [d|e1] eqn:Hd;
        cbn [bind] in H.
      * destruct (dict_get content (str "total")) as [t|e2] eqn:Ht;
          cbn [bind] in H; [discriminate|].
        injection H as <-. now apply dict_get_raise in Ht.
      * injection H as <-. now apply dict_get_raise in Hd.
    + injection H as <-. now apply dict_get_raise in Hc.
  - destruct (dict_get content (str "company")) as [c|e0] eqn:Hc;
      cbn [bind] in H.
    + destruct (dict_get content (str "date")) as [d|e1] eqn:Hd;
        cbn [bind] in H.
      * destruct (dict_get content (str "total")) as [t|e2] eqn:Ht;
          cbn [bind] in H; [discriminate|].
        apply dict_get_raise in Ht as [_ Ht].
        exists (str "total"). split; [cbn; tauto | exact Ht].
      * apply dict_get_raise in Hd as [_ Hd].
        exists (str "date"). split; [cbn; tauto | exact Hd].
    + apply dict_get_raise in Hc as [_ Hc].
      exists (str "company"). split; [cbn; tauto | exact Hc].
  - destruct (dict_get content (str "company")) as [c|e0]; [|discriminate].
    cbn [bind] in H.
    destruct (dict_get content (str "date")) as [d|e1]; [|discriminate].
    cbn [bind] in H.
    destruct (dict_get content (str "total")) as [t|e2]; [|discriminate].
    cbn [bind] in H. now injection H as <-.
  - destruct (dict_get content (str "company")) as [c|e0]; [|discriminate].
    cbn [bind] in H.
    destruct (dict_get content (str "date")) as [d|e1]; [|discriminate].
    cbn [bind] in H.
    destruct (dict_get content (str "total")) as [t|e2]; [|discriminate].
    cbn [bind] in H. now injection H as <-.
  - destruct (dict_get content (str "company")) as [c|e0]; [|discriminate].
    cbn [bind] in H.
    destruct (dict_get content (str "date")) as [d|e1]; [|discriminate].
    cbn [bind] in H.
    destruct (dict_get content (str "total")) as [t|e2]; [|discriminate].
    cbn [bind] in H. now injection H as <-.
  - intros Hmissing.
    destruct (dict_get content (str "company")) as [c|e0]; [|discriminate].
    cbn [bind] in H.
    destruct (dict_get content (str "date")) as [d|e1]; [|discriminate].
    cbn [bind] in H.
    destruct (dict_get content (str "total")) as [t|e2]; [|discriminate].
    cbn [bind] in H. injection H as <-. cbn [Receipt.address].
    unfold Loader.dict_get_default.
    now rewrite (dict_get_missing _ _ Hmissing).
  - intros v Hv.
    destruct (dict_get content (str "company")) as [c|e0]; [|discriminate].
    cbn [bind] in H.
    destruct (dict_get content (str "date")) as [d|e1]; [|discriminate].
    cbn [bind] in H.
    destruct (dict_get content (str "total")) as [t|e2]; [|discriminate].
    cbn [bind] in H. injection H as <-. cbn [Receipt.address].
    unfold Loader.dict_get_default. now rewrite Hv.
  - intros Hkeys.
    destruct (dict_get_present content (str "company")) as [c ->];
      [apply Hkeys; cbn; tauto|].
    destruct (dict_get_present content (str "date")) as [d ->];
      [apply Hkeys; cbn; tauto|].
    destruct (dict_get_present content (str "total")) as [t ->];
      [apply Hkeys; cbn; tauto|].
    cbn [bind]. eexists. reflexivity.
Qed.

(** A content without address, and a content without total. *)
Lemma receipt_of_outcome_witness :
  let img := fun name => str "data/img/" ++ name in
  let full := [ (str "company", str "ACME"); (str "date", str "2024-01-01");
                (str "total", str "10.00") ] in
  let short := [ (str "company", str "ACME"); (str "date", str "2024-01-01") ] in
  (exists r,
      Loader.receipt_of img (str "1.txt", full) = Ok r
      /\ Receipt.address r = []
      /\ dict_get full (str "total") = Ok (Receipt.total r))
  /\ Loader.receipt_of img (str "2.txt", short) = Raise KeyError
  /\ exists k,
      In k [str "company"; str "date"; str "total"]
      /\ ~ In k (map fst short).
Proof.
  cbv zeta. split.
  - eexists. split; [vm_compute; reflexivity|].
    match goal with
    | |- Receipt.address ?r = _ /\ _ =>
        destruct (proj1 (proj2 (receipt_of_outcome
                    (fun name => str "data/img/" ++ name) (str "1.txt")
                    [ (str "company", str "ACME");
                      (str "date", str "2024-01-01");
                      (str "total", str "10.00") ])) r)
          as (_ & _ & Htotal & Hin & _); [vm_compute; reflexivity|]
    end.
    split; [|exact Htotal].
    apply Hin. apply mem_not_In. reflexivity.
  - split; [reflexivity|].
    apply (proj1 (receipt_of_outcome
                    (fun name => str "data/img/" ++ name) (str "2.txt")
                    [ (str "company", str "ACME");
                      (str "date", str "2024-01-01") ]) KeyError).
    reflexivity.
Defined.

Lemma receipt_of_raise (img : pystr -> pystr)
      (labels_json : pystr * list (pystr * pystr)) (e : exn) :
  Loader.receipt_of img labels_json = Raise e ->
  e = KeyError /\ ~ has_keys labels_json.
Proof.
  destruct labels_json as [filename content]. unfold Loader.receipt_of.
  intros H.
  assert (Hbad : forall k, In k [str "company"; str "date"; str "total"] ->
                           ~ In k (map fst content) ->
                           ~ has_keys (filename, content)).
  { intros k Hk Hmissing Hall. apply Hmissing. now apply Hall. }
  destruct (dict_get content (str "company")) as [c|e0] eqn:Hc;
    cbn [bind] in H.
  - destruct (dict_get content (str "date")) as [d|e1] eqn:Hd;
      cbn [bind] in H.
    + destruct (dict_get content (str "total")) as [t|e2] eqn:Ht;
        cbn [bind] in H; [discriminate|].
      injection H as <-. apply dict_get_raise in Ht as [-> Ht].
      split; [reflexivity|]. apply (Hbad (str "total")); [cbn; tauto | exact Ht].
    + injection H as <-. apply dict_get_raise in Hd as [-> Hd].
      split; [reflexivity|]. apply (Hbad (str "date")); [cbn; tauto | exact Hd].
  - injection H as <-. apply dict_get_raise in Hc as [-> Hc].
    split; [reflexivity|]. apply (Hbad (str "company")); [cbn; tauto | exact Hc].
Qed.

Lemma receipt_of_returns (img : pystr -> pystr)
      (labels_json : pystr * list (pystr * pystr)) :
  has_keys labels_json -> exists r, Loader.receipt_of img labels_json = Ok r.
Proof.
  destruct labels_json as [filename content]. unfold has_keys. cbn [snd].
  intros Hkeys. unfold Loader.receipt_of.
  destruct (dict_get_present content (str "company")) as [c ->];
    [apply Hkeys; cbn; tauto|].
  destruct (dict_get_present content (str "date")) as [d ->];
    [apply Hkeys; cbn; tauto|].
  destruct (dict_get_present content (str "total")) as [t ->];
    [apply Hkeys; cbn; tauto|].
  cbn [bind]. eexists. reflexivity.
Qed.

Lemma receipt_of_keys (img : pystr -> pystr)
      (labels_json : pystr * list (pystr * pystr)) (r : Receipt.Receipt) :
  Loader.receipt_of img labels_json = Ok r -> has_keys labels_json.
Proof.
  destruct labels_json as [filename content]. unfold Loader.receipt_of.
  intros H.
  destruct (dict_get content (str "company")) as [c|e0] eqn:Hc;
    [|discriminate].
  cbn [bind] in H.
  destruct (dict_get content (str "date")) as [d|e1] eqn:Hd; [|discriminate].
  cbn [bind] in H.
  destruct (dict_get content (str "total")) as [t|e2] eqn:Ht; [|discriminate].
  intros k Hk. cbn [snd]. cbn [In] in Hk.
  destruct Hk as [<-|[<-|[<-|[]]]].
  - apply dict_get_found in Hc. now apply (in_map fst) in Hc.
  - apply dict_get_found in Hd. now apply (in_map fst) in Hd.
  - apply dict_get_found in Ht. now apply (in_map fst) in Ht.
Qed.

Lemma receipt_of_missing (img : pystr -> pystr)
      (labels_json : pystr * list (pystr * pystr)) :
  ~ has_keys labels_json -> Loader.receipt_of img labels_json = Raise KeyError.
Proof.
  intros Hnot. destruct (Loader.receipt_of img labels_json) as [r|e] eqn:H.
  - exfalso. apply Hnot. now apply receipt_of_keys in H.
  - now apply receipt_of_raise in H as [-> _].
Qed.

(** X21. [load] makes one receipt per file, in the order of the files, when
    every content has the keys company, date and total; a single content
    without one of them makes the whole call raise [KeyError]. *)
Theorem receipts_outcome (img : pystr -> pystr)
        (labels_jsons : list (pystr * list (pystr * pystr))) :
  (Forall has_keys labels_jsons ->
   exists rs,
     Loader.receipts img labels_jsons = Ok rs
     /\ Forall2 (fun labels_json r =>
                   Loader.receipt_of img labels_json = Ok r)
                labels_jsons rs)
  /\ (~ Forall has_keys labels_jsons ->
      Loader.receipts img labels_jsons = Raise KeyError).
Proof.
  induction labels_jsons as [|labels_json labels_jsons [IHok IHbad]].
  - split.
    + intros _. exists []. split; [reflexivity | constructor].
    + intros H. exfalso. apply H. constructor.
  - cbn [Loader.receipts]. split.
    + intros Hall. inversion Hall as [|x l Hkeys Hrest]; subst.
      destruct (receipt_of_returns img Hkeys) as [r Hr].
      destruct (IHok Hrest) as (rs & Hrs & Hall2).
      exists (r :: rs). rewrite Hr, Hrs. split; [reflexivity|].
      now constructor.
    + intros Hnot.
      destruct (Loader.receipt_of img labels_json) as [r|e] eqn:Hr.
      * cbn [bind]. rewrite IHbad; [reflexivity|].
        intros Hrest. apply Hnot. constructor; [|exact Hrest].
        now apply receipt_of_keys in Hr.
      * now apply receipt_of_raise in Hr as [-> _].
Qed.

(** The second of two files has no total. *)
Lemma receipts_outcome_witness :
  let img := fun name => str "data/img/" ++ name in
  let full := [ (str "company", str "ACME"); (str "date", str "2024-01-01");
                (str "total", str "10.00") ] in
  let short := [ (str "company", str "ACME"); (str "date", str "2024-01-01") ] in
  (exists rs, Loader.receipts img [(str "1.txt", full)] = Ok rs
              /\ length rs = 1)
  /\ Loader.receipts img [(str "1.txt", full); (str "2.txt", short)]
     = Raise KeyError.
Proof.
  cbv zeta. split.
  - destruct (proj1 (receipts_outcome
                       (fun name => str "data/img/" ++ name)
                       [(str "1.txt",
                         [ (str "company", str "ACME");
                           (str "date", str "2024-01-01");
                           (str "total", str "10.00") ])]))
      as (rs & Hrs & Hall).
    + constructor; [|constructor]. intros k Hk. apply mem_In.
      cbn [In] in Hk. destruct Hk as [<-|[<-|[<-|[]]]]; reflexivity.
    + exists rs. split; [exact Hrs|].
      inversion Hall as [|x r l rs' _ Hnil]; subst.
      inversion Hnil; subst. reflexivity.
  - apply (proj2 (receipts_outcome
                    (fun name => str "data/img/" ++ name)
                    [(str "1.txt",
                      [ (str "company", str "ACME");
                        (str "date", str "2024-01-01");
                        (str "total", str "10.00") ]);
                     (str "2.txt",
                      [ (str "company", str "ACME");
                        (str "date", str "2024-01-01") ])])).
    intros Hall. inversion Hall as [|x l _ Hrest]; subst.
    inversion Hrest as [|y l' Hkeys _]; subst.
    specialize (Hkeys (str "total")). cbn [snd] in Hkeys.
    apply mem_In in Hkeys; [discriminate|]. cbn. tauto.
Defined.

(** ** dataset.py: the name of the image *)

Lemma match_replace_consumes (old new : pystr) :
  old <> [] ->
  forall s out rest,
    Loader.match_replace old new s = Some (out, rest) ->
    length rest < length s.
Proof.
  intros Hold s out rest. unfold Loader.match_replace.
  destruct (prefix old s) eqn:Hp; [|discriminate].
  intros H. injection H as _ <-.
  apply prefix_true in Hp. rewrite Hp at 2.
  rewrite length_app. destruct old; [congruence|]. cbn [length]. lia.
Qed.

Lemma replace_general_prefix (old new b : pystr) :
  old <> [] ->
  Loader.replace (old ++ b) old new = new ++ Loader.replace b old new.
Proof.
  intros Hold. destruct old as [|a old]; [congruence|].
  cbn [Loader.replace].
  apply (@sub_all_match (Loader.match_replace (a :: old) new)).
  - now apply match_replace_consumes.
  - unfold Loader.match_replace. now rewrite prefix_app, skipn_prefix.
Qed.

Lemma replace_general_skip (old new : pystr) (c : char) (s : pystr) :
  prefix old (c :: s) = false ->
  Loader.replace (c :: s) old new = c :: Loader.replace s old new.
Proof.
  intros H. destruct old as [|a old]; [discriminate|].
  cbn [Loader.replace]. apply sub_all_skip.
  unfold Loader.match_replace. now rewrite H.
Qed.

Lemma replace_general_fixed (old new s : pystr) :
  occurs old s = false -> Loader.replace s old new = s.
Proof.
  intros H. destruct old as [|a old].
  - destruct s; discriminate.
  - cbn [Loader.replace]. apply sub_all_fixed.
    + apply match_replace_consumes. discriminate.
    + rewrite <- H. clear H.
      induction s as [|c s IH]; cbn [somewhere occurs];
        unfold Loader.match_replace; destruct (prefix (a :: old) _);
        cbn [orb]; auto.
Qed.

Lemma replace_general_chunk (old new : pystr) :
  old <> [] ->
  forall a b,
    occurs old (a ++ removelast old) = false ->
    Loader.replace (a ++ old ++ b) old new
    = a ++ new ++ Loader.replace b old new.
Proof.
  intros Hold. induction a as [|c a IH]; intros b H.
  - cbn [app]. now apply replace_general_prefix.
  - cbn [app occurs] in H. apply orb_false_iff in H as [Hp Hocc].
    cbn [app]. rewrite replace_general_skip.
    + f_equal. now apply IH.
    + rewrite (app_removelast_last 0%N Hold) at 2.
      rewrite <- app_assoc, app_assoc.
      change (c :: (a ++ removelast old) ++ [last old 0%N] ++ b)
        with ((c :: a ++ removelast old) ++ [last old 0%N] ++ b).
      rewrite prefix_long; [exact Hp|].
      cbn [length]. rewrite length_app.
      pose proof (app_removelast_last 0%N Hold) as E.
      apply (f_equal (@length _)) in E. rewrite length_app in E.
      cbn [length] in E. unfold pystr, char in *. lia.
Qed.

(** X22. A file name that ends in [.txt] and holds [.txt] nowhere else
    gives the image name with [.jpg] in its place; a name without [.txt]
    is the image name itself. *)
Theorem image_name_of_stem (stem : pystr) :
  (occurs (str ".txt") (stem ++ str ".tx") = false ->
   Loader.image_name (stem ++ str ".txt") = stem ++ str ".jpg")
  /\ (occurs (str ".txt") stem = false -> Loader.image_name stem = stem).
Proof.
  unfold Loader.image_name. split.
  - intros H.
    rewrite <- (app_nil_r (str ".txt")).
    rewrite replace_general_chunk; [|discriminate|exact H].
    rewrite replace_general_fixed by reflexivity. now rewrite app_nil_r.
  - apply replace_general_fixed.
Qed.

Lemma image_name_of_stem_witness :
  Loader.image_name (str "X51005200931" ++ str ".txt")
  = str "X51005200931" ++ str ".jpg"
  /\ Loader.image_name (str "notes") = str "notes".
Proof.
  destruct (image_name_of_stem (str "X51005200931")) as [Hjpg _].
  destruct (image_name_of_stem (str "notes")) as [_ Hsame].
  split; [apply Hjpg | apply Hsame]; vm_compute; reflexivity.
Defined.

(** ** inference_processor.py: what the mask may change *)

(** X23. In the scores [__call__] returns, a score is the one given or it
    is negative infinity, and it can only differ at an id of a tag-list
    entry, in a row that has ids: the scores of all other ids are never
    touched. *)
Theorem call_changes_only_tag_ids (self : InferenceLogitsProcessor.t)
        (input_ids : list (list nat)) (scores out : list (list score)) :
  InferenceLogitsProcessor.call self input_ids scores = Ok out ->
  forall i row,
    nth_error scores i = Some row ->
    exists row',
      nth_error out i = Some row'
      /\ forall j,
          nth_error row' j = nth_error row j
          \/ (nth_error row' j = Some neg_inf
              /\ In j (InferenceLogitsProcessor.special_token_ids self)
              /\ i < length input_ids).
Proof.
  intros Hcall i row Hrow.
  destruct (nth_error input_ids i) as [ids|] eqn:Hids.
  - destruct (call_rows _ _ _ Hcall _ Hids)
      as (row0 & row' & Hrow0 & Hrow' & Hcallrow).
    assert (row0 = row) by congruence. subst row0.
    exists row'. split; [exact Hrow'|]. intros j.
    destruct (call_row_spec _ _ _ Hcallrow)
      as (last_tag & candidates & _ & _ & _ & Hin & Hout).
    destruct (in_dec Nat.eq_dec j
                (InferenceLogitsProcessor.forbidden self candidates))
      as [Hj|Hj].
    + right. split; [now apply Hin|]. split.
      * now apply forbidden_In in Hj.
      * apply nth_error_Some. congruence.
    + left. now apply Hout.
  - apply nth_error_None in Hids.
    assert (Hskip : skipn (length input_ids) out
                    = skipn (length input_ids) scores).
    { clear i row Hrow Hids. revert scores out Hcall.
      induction input_ids as [|ids input_ids IH]; intros scores out H.
      - now injection H as <-.
      - cbn [InferenceLogitsProcessor.call] in H.
        destruct scores as [|row scores].
        + destruct (InferenceLogitsProcessor._last_tag self ids) as [t|e];
            [|discriminate].
          cbn [bind] in H.
          destruct (InferenceLogitsProcessor._candidate_tags t); discriminate.
        + destruct (InferenceLogitsProcessor.call_row self ids row)
            as [row'|e]; [|discriminate].
          cbn [bind] in H.
          destruct (InferenceLogitsProcessor.call self input_ids scores)
            as [rest|e] eqn:Hrest; [|discriminate].
          cbn [bind] in H. injection H as <-. cbn [length skipn].
          now apply IH. }
    exists row. split; [|now left].
    rewrite <- (firstn_skipn (length input_ids) out).
    rewrite <- (firstn_skipn (length input_ids) scores) in Hrow.
    assert (Hlen : length (firstn (length input_ids) out)
                   = length (firstn (length input_ids) scores)).
    { rewrite !length_firstn.
      assert (Hout : length out = length scores).
      { clear i row Hrow Hids Hskip. revert scores out Hcall.
        induction input_ids as [|ids input_ids IH]; intros scores out H.
        - now injection H as <-.
        - cbn [InferenceLogitsProcessor.call] in H.
          destruct scores as [|row scores].
          + destruct (InferenceLogitsProcessor._last_tag self ids) as [t|e];
              [|discriminate].
            cbn [bind] in H.
            destruct (InferenceLogitsProcessor._candidate_tags t);
              discriminate.
          + destruct (InferenceLogitsProcessor.call_row self ids row)
              as [row'|e]; [|discriminate].
            cbn [bind] in H.
            destruct (InferenceLogitsProcessor.call self input_ids scores)
              as [rest|e] eqn:Hrest; [|discriminate].
            cbn [bind] in H. injection H as <-. cbn [length].
            f_equal. now apply IH. }
      now rewrite Hout. }
    assert (Hi : length (firstn (length input_ids) scores) <= i).
    { rewrite length_firstn. lia. }
    rewrite nth_error_app2 in Hrow by exact Hi.
    rewrite nth_error_app2 by (rewrite Hlen; exact Hi).
    now rewrite Hlen, Hskip.
Qed.

(** After [</s_company>]: the text piece 4 keeps its score, the id 8 of
    [<s_company>] is masked. *)
Lemma call_changes_only_tag_ids_witness :
  exists out row',
    InferenceLogitsProcessor.call
      (InferenceLogitsProcessor.init Vocab.tokenizer)
      [[0; 8; 4; 9]] [repeat Vocab.minus_one 16] = Ok out
    /\ nth_error out 0 = Some row'
    /\ nth_error row' 4 = Some Vocab.minus_one
    /\ nth_error row' 8 = Some neg_inf
    /\ forall j,
        nth_error row' j = nth_error (repeat Vocab.minus_one 16) j
        \/ (nth_error row' j = Some neg_inf
            /\ In j (InferenceLogitsProcessor.special_token_ids
                       (InferenceLogitsProcessor.init Vocab.tokenizer))
            /\ 0 < length [[0; 8; 4; 9]]).
Proof.
  eexists.
  match goal with
  | |- exists row', ?c = Ok ?o /\ _ =>
      assert (Hcall : c = Ok o) by (vm_compute; reflexivity)
  end.
  destruct (call_changes_only_tag_ids _ _ _ Hcall 0
              (row := repeat Vocab.minus_one 16) eq_refl)
    as (row' & Hrow' & Hall).
  exists row'. split; [exact Hcall|]. split; [exact Hrow'|].
  vm_compute in Hrow'. injection Hrow' as <-.
  split; [reflexivity|]. split; [reflexivity | exact Hall].
Defined.
